(** * maxtime.hh: ride selection under a dollar budget

    A shallow embedding of [src/maxtime.hh] and the properties of its
    filter, its dynamic-programming solver, its exhaustive solver and its
    database loader.

    Conventions of the embedding.
    - [int] values are integers [Z] in the range of the type.  The sums of
      costs of [sum_ride_vector] wrap around at 32 bits, as the compiled
      program does ([int_wrap]); a narrowing conversion to [int] wraps
      likewise.  The index arithmetic of the dynamic solver is left
      unwrapped: it stays in range for rides of positive cost and a budget
      below [INT_MAX].
    - a finite [double] is the rational [Q] that it stands for, and the
      rationals [2^1024] and [-2^1024] stand for the two infinities.  The
      comparisons of the source ([<], [<=], [>=], [==]) are exact on these
      values.  A sum of two [double]s is rounded to the nearest [double],
      ties to the even significand, with the 53-bit precision, the
      subnormal range and the overflow to infinity of the binary64 format
      ([double_add]).  A NaN is not a time and is not part of the model.
    - [std::vector] is [list]; [push_back] appends at the end.
    - an access outside a vector (undefined for [operator[]]) makes the
      modelled function return [None]. *)

From Stdlib Require Import ZArith QArith Qround Lqa Lia List Ascii String.
From Stdlib Require Import SpecFloat.
From stdpp Require Import base tactics option list strings.

Local Open Scope Z_scope.

(** ** Ride items *)

(** [class RideItem]: the constructor asserts a non-empty description and a
    positive cost. *)
Record RideItem : Type := mkRideItem {
  description : string;
  cost : Z;
  time : Q
}.

(** [typedef std::vector<std::shared_ptr<RideItem>> RideVector]. *)
Abbreviation RideVector := (list RideItem).

(** Line 58: the cost of a ride must be positive. *)
Definition valid_ride (r : RideItem) : Prop := 0 < cost r.

(** Strict comparison of two [double]s. *)
Definition Qlt_bool (a b : Q) : bool := negb (Qle_bool b a).

(** ** Machine arithmetic *)

(** The value that a 32-bit [int] keeps of an integer: the integer itself
    in the range of the type, and the integer modulo [2^32] outside. *)
Definition int_wrap (z : Z) : Z := (z + 2 ^ 31) mod 2 ^ 32 - 2 ^ 31.

(** The integer nearest to [N / D], for [D > 0]; of the two nearest ones,
    the even one. *)
Definition round_half_even (N D : Z) : Z :=
  let q := N / D in
  let r := N mod D in
  match 2 * r ?= D with
  | Lt => q
  | Eq => if Z.even q then q else q + 1
  | Gt => q + 1
  end.

(** The binary64 value nearest to [N / D] for [N >= 0] and [D > 0], when
    one unit is the least positive [double], [2^-1074].  The exponent
    leaves 53 bits to the significand, and none below the unit. *)
Definition double_exponent (N D : Z) : Z := Z.max 0 (Z.log2 (N / D) - 52).

Definition double_grid (N D : Z) : Z :=
  let e := double_exponent N D in
  round_half_even N (D * 2 ^ e) * 2 ^ e.

(** [2^1024] in units of [2^-1074]: the first value that is not finite. *)
Definition infinity_units : Z := 2 ^ 2098.

(** The [double] nearest to the rational [q], in units of [2^-1074], with
    its sign; a value that rounds to [2^1024] or more is infinite. *)
Definition double_units (q : Q) : Z :=
  let N := Qnum q * 2 ^ 1074 in
  let D := Zpos (Qden q) in
  if 0 <=? N
  then Z.min (double_grid N D) infinity_units
  else - Z.min (double_grid (- N) D) infinity_units.

(** Rounding a rational to the nearest [double]. *)
Definition double_round (q : Q) : Q :=
  Qred (Qmake (double_units q) (2 ^ 1074)).

(** The value that stands for the positive infinity. *)
Definition double_infinity : Q := inject_Z (2 ^ 1024).

(** [a + b] on [double]s: an infinite operand gives that infinity, and the
    sum of two finite ones is rounded.  (Two infinities of opposite signs
    give a NaN in the source; the case does not arise when one operand is a
    finite time.) *)
Definition double_add (a b : Q) : Q :=
  if Qle_bool double_infinity a || Qle_bool double_infinity b
  then double_infinity
  else if Qle_bool a (- double_infinity) || Qle_bool b (- double_infinity)
  then (- double_infinity)%Q
  else double_round (a + b).

(** The rational that a binary64 value of the library's specification of
    floating-point numbers stands for, with [2^1024] and [-2^1024] for the
    infinities; a NaN stands for nothing, and is given 0. *)
Definition spec_float_value (f : spec_float) : Q :=
  match f with
  | S754_zero _ => 0%Q
  | S754_infinity s => if s then (- double_infinity)%Q else double_infinity
  | S754_nan => 0%Q
  | S754_finite s m e =>
      let units := Zpos m * 2 ^ (e + 1074) in
      Qred (Qmake (if s then - units else units) (2 ^ 1074))
  end.

(** The addition of binary64 values in the library's specification. *)
Definition binary64_add (x y : spec_float) : spec_float := SFadd 53 1024 x y.

(** [double_add] gives the value of [binary64_add], unless that is a NaN. *)
Definition double_add_agrees (x y : spec_float) : bool :=
  match binary64_add x y with
  | S754_nan => true
  | z => Qeq_bool (double_add (spec_float_value x) (spec_float_value y))
           (spec_float_value z)
  end.

(** Binary64 values on which the two additions are compared: zero, the
    least and the greatest subnormal number, [2^-60], [3 * 2^-55], the
    doubles nearest to [0.1] and [0.3], [1], [1 + 2^-52], [1 + 2^-51], the
    greatest finite number, the positive infinity, and four negative
    numbers. *)
Definition binary64_samples : list spec_float :=
  [S754_zero false;
   S754_finite false 1 (-1074);
   S754_finite false (2 ^ 52 - 1) (-1074);
   S754_finite false (2 ^ 52) (-112);
   S754_finite false (3 * 2 ^ 51) (-107);
   S754_finite false 7205759403792794 (-56);
   S754_finite false 5404319552844595 (-54);
   S754_finite false (2 ^ 52) (-52);
   S754_finite false (2 ^ 52 + 1) (-52);
   S754_finite false (2 ^ 52 + 2) (-52);
   S754_finite false (2 ^ 53 - 1) 971;
   S754_infinity false;
   S754_finite true 1 (-1074);
   S754_finite true 7205759403792794 (-56);
   S754_finite true (2 ^ 52 + 1) (-52);
   S754_finite true (2 ^ 53 - 1) 971].

(** ** sum_ride_vector *)

(** The loop body: [total_cost += ride->cost(); total_time += ride->time()],
    the first in [int] and the second in [double]. *)
Definition sum_step (acc : Z * Q) (ride : RideItem) : Z * Q :=
  (int_wrap (fst acc + cost ride), double_add (snd acc) (time ride)).

(** [sum_ride_vector(rides, total_cost, total_time)]: the two output
    parameters are returned as a pair. *)
Definition sum_ride_vector (rides : RideVector) : Z * Q :=
  fold_left sum_step rides (0, 0%Q).

Definition total_cost_of (rides : RideVector) : Z := fst (sum_ride_vector rides).
Definition total_time_of (rides : RideVector) : Q := snd (sum_ride_vector rides).

(** ** filter_ride_vector *)

(** The test of line 263. *)
Definition filter_test (min_time max_time : Q) (element : RideItem) : bool :=
  Qle_bool min_time (time element) && Qle_bool (time element) max_time
  && Qlt_bool 0 (time element).

(** The range-based [for] of lines 262-267 over the remaining elements of
    [source]; [filtered_rides] is the vector built so far.  The size test
    comes after the [push_back] and ends the loop. *)
Fixpoint filter_loop (source : RideVector) (min_time max_time : Q)
    (total_size : Z) (filtered_rides : RideVector) : RideVector :=
  match source with
  | [] => filtered_rides
  | element :: rest =>
      let filtered_rides' :=
        if filter_test min_time max_time element
        then filtered_rides ++ [element]
        else filtered_rides in
      if Z.of_nat (length filtered_rides') >=? total_size
      then filtered_rides'
      else filter_loop rest min_time max_time total_size filtered_rides'
  end.

Definition filter_ride_vector (source : RideVector) (min_time max_time : Q)
    (total_size : Z) : RideVector :=
  filter_loop source min_time max_time total_size [].

(** ** Loops and vector accesses *)

(** A [for] loop over the index values [l], whose body may fail. *)
Fixpoint for_each {A St : Type} (body : A -> St -> option St) (l : list A)
    (s : St) : option St :=
  match l with
  | [] => Some s
  | x :: l' => match body x s with
               | Some s' => for_each body l' s'
               | None => None
               end
  end.

(** [std::vector<std::vector<double>> cache]. *)
Abbreviation Cache := (list (list Q)).

(** Reading [cache[i][j]]. *)
Definition cache_get (cache : Cache) (i : nat) (j : Z) : option Q :=
  if j <? 0 then None
  else match cache !! i with
       | Some row => row !! Z.to_nat j
       | None => None
       end.

(** Writing [cache[i][j] = v]. *)
Definition cache_set (cache : Cache) (i : nat) (j : Z) (v : Q) : option Cache :=
  if j <? 0 then None
  else match cache !! i with
       | Some row =>
           if (Z.to_nat j <? length row)%nat
           then Some (<[i := <[Z.to_nat j := v]> row]> cache)
           else None
       | None => None
       end.

(** [v.empty()]. *)
Definition vector_empty {A : Type} (v : list A) : bool :=
  match v with
  | [] => true
  | _ :: _ => false
  end.

(** [std::max(a, b)], which is [(a < b) ? b : a]. *)
Definition std_max (a b : Q) : Q := if Qlt_bool a b then b else a.

(** ** dynamic_max_time *)

(** Lines 286-290: [rides.size() + 1] rows of [total_cost + 2] zeros.  The
    bound [total_cost + 1] of line 288 is computed in [int]: the definition
    stands for budgets below [INT_MAX]. *)
Definition init_cache (n : nat) (total_cost : Z) : Cache :=
  replicate (n + 1) (replicate (Z.to_nat (total_cost + 2)) 0%Q).

(** Lines 294-300, the body of the two nested loops. *)
Definition fill_cell (rides : RideVector) (i : nat) (j : Z) (cache : Cache)
    : option Cache :=
  match rides !! (i - 1)%nat with
  | None => None
  | Some item =>
      let results :=
        if j - cost item >=? 0
        then match cache_get cache (i - 1) (j - cost item),
                   cache_get cache (i - 1) j with
             | Some a, Some b => Some (std_max (double_add (time item) a) b)
             | _, _ => None
             end
        else cache_get cache (i - 1) j in
      match results with
      | Some v => cache_set cache i j v
      | None => None
      end
  end.

(** Lines 292-302: [i] from 1 to [rides.size()], [j] from 1 to [total_cost]. *)
Definition fill_cache (rides : RideVector) (total_cost : Z) (cache : Cache)
    : option Cache :=
  for_each
    (fun i => for_each (fun j => fill_cell rides i j) (seqZ 1 total_cost))
    (seq 1 (length rides)) cache.

(** Lines 305-311, the body of the reconstruction loop; the state is
    [tempcost] (a [double] that only ever holds integers) and [result]. *)
Definition backtrack_step (rides : RideVector) (cache : Cache) (i : nat)
    (st : Z * RideVector) : option (Z * RideVector) :=
  let '(tempcost, result) := st in
  match cache_get cache i tempcost, cache_get cache (i - 1) tempcost with
  | Some a, Some b =>
      if Qeq_bool a b then Some st
      else match rides !! (i - 1)%nat with
           | Some item => Some (tempcost - cost item, result ++ [item])
           | None => None
           end
  | _, _ => None
  end.

(** Lines 303-312: [i] from [rides.size()] down to 1. *)
Definition backtrack (rides : RideVector) (total_cost : Z) (cache : Cache)
    : option (Z * RideVector) :=
  for_each (backtrack_step rides cache) (rev (seq 1 (length rides)))
    (total_cost, []).

Definition dynamic_max_time (rides : RideVector) (total_cost : Z)
    : option RideVector :=
  match fill_cache rides total_cost (init_cache (length rides) total_cost) with
  | None => None
  | Some cache =>
      match backtrack rides total_cost cache with
      | Some (_, result) => Some result
      | None => None
      end
  end.

(** ** exhaustive_max_time *)

(** Lines 349-353, one step of the inner loop: [(bits >> j & 1) == 1]
    selects [rides.at(j)]. *)
Definition candidate_step (rides : RideVector) (bits : Z) (j : nat)
    (candidate : RideVector) : option RideVector :=
  if Z.land (Z.shiftr bits (Z.of_nat j)) 1 =? 1
  then match rides !! j with
       | Some r => Some (candidate ++ [r])
       | None => None
       end
  else Some candidate.

(** Lines 348-353: the candidate of the bit pattern [bits]. *)
Definition build_candidate (rides : RideVector) (n : nat) (bits : Z)
    : option RideVector :=
  for_each (candidate_step rides bits) (seq 0 n) [].

(** Lines 354-364: the candidate replaces [best] when it is within the
    budget and [best] is empty or has strictly less time. *)
Definition choose_best (total_cost : Q) (best candidate : RideVector)
    : RideVector :=
  let '(total_cost_candidate, total_time_candidate) := sum_ride_vector candidate in
  let '(total_cost_main, total_time_main) := sum_ride_vector best in
  if Qle_bool (inject_Z total_cost_candidate) total_cost
  then if vector_empty best || Qlt_bool total_time_main total_time_candidate
       then candidate
       else best
  else best.

(** The guard [bits <= pow(2, n)] of line 347 as the source evaluates it:
    [bits] is converted to [double], and so rounded, and compared with the
    power, which is exact for [n <= 64]. *)
Definition guard_in_double (bits : Z) (n : nat) : bool :=
  Qle_bool (double_round (inject_Z bits)) (inject_Z (2 ^ Z.of_nat n)).

(** [bits++] on a 64-bit [size_t]. *)
Definition size_t_succ (bits : Z) : Z := (bits + 1) mod 2 ^ 64.

(** Line 347, the outer loop from the state [(bits, best)].  The guard is
    written as the comparison of integers: for [n < 53] it is the value of
    [guard_in_double] at every value that [bits] takes
    ([guard_in_double_exact]), and for [n = 64] both comparisons hold at
    every 64-bit value.  For [53 <= n < 64] the conversion rounds [bits]
    once it is above [2^53], and the source goes through some more passes
    after the pattern [2^n] than the comparison of integers allows
    ([guard_in_double_53]).  [fuel] bounds the number of guard tests, [None]
    reports that it ran out (or that [at] threw).  The second component is
    a ghost record of the values of [bits] for which the body was run, in
    order. *)
Fixpoint exhaustive_loop (fuel : nat) (rides : RideVector) (n : nat)
    (total_cost : Q) (bits : Z) (best : RideVector) (seen : list Z)
    : option (RideVector * list Z) :=
  match fuel with
  | O => None
  | S fuel' =>
      if bits <=? 2 ^ Z.of_nat n
      then match build_candidate rides n bits with
           | Some candidate =>
               exhaustive_loop fuel' rides n total_cost (size_t_succ bits)
                 (choose_best total_cost best candidate) (seen ++ [bits])
           | None => None
           end
      else Some (best, seen)
  end.

(** Lines 344-346 and the loop, with the ghost record of the patterns. *)
Definition exhaustive_run (fuel : nat) (rides : RideVector) (total_cost : Q)
    : option (RideVector * list Z) :=
  let n := length rides in
  let n := if (64 <? n)%nat then 64%nat else n in
  exhaustive_loop fuel rides n total_cost 0 [] [].

Definition exhaustive_max_time (fuel : nat) (rides : RideVector)
    (total_cost : Q) : option RideVector :=
  fst <$> exhaustive_run fuel rides total_cost.

(** ** load_ride_database *)

(** Lines 100-103: [std::getline(ss, field, '^')] until it fails.  [field]
    holds the characters read by the call in progress.  A call that meets
    the end of the line after reading nothing fails and ends the loop, so a
    line that ends in the delimiter has no last empty field. *)
Fixpoint split_fields (line : string) (field : string) : list string :=
  match line with
  | EmptyString =>
      match field with
      | EmptyString => []
      | _ => [field]
      end
  | String c rest =>
      if Ascii.eqb c "^"%char
      then field :: split_fields rest EmptyString
      else split_fields rest (field +:+ String c EmptyString)
  end.

(** The conversion of a [double] to the [size_t] parameter of the
    constructor (line 35): the fraction is dropped.  The conversion of a
    value of [-1] or less, or of [2^64] or more, is not defined in C++; the
    model takes the truncated value modulo [2^64], which is what the
    compiled program gives for a negative value. *)
Definition double_to_size_t (q : Q) : Z :=
  Z.quot (Qnum q) (Zpos (Qden q)) mod 2 ^ 64.

(** The cost that the member [int _cost_dollars] keeps of a [double] passed
    to the constructor (lines 35 and 40): converted to [size_t], and then
    narrowed to [int]. *)
Definition double_to_int (q : Q) : Z := int_wrap (double_to_size_t q).

(** The constructor of [RideItem]; [None] is a failed [assert].  The
    assertion of line 44 is on the [size_t] parameter, and the member keeps
    the narrowed value. *)
Definition new_RideItem (descr : string) (cost_dollars time_minutes : Q)
    : option RideItem :=
  if negb (String.eqb descr EmptyString)
     && (0 <? double_to_size_t cost_dollars)
  then Some (mkRideItem descr (double_to_int cost_dollars) time_minutes)
  else None.

(** What a load ends in: [nullptr], a failed assertion, or the vector. *)
Inductive load_outcome : Type :=
  | LoadFailure
  | LoadAbort
  | Loaded (result : RideVector).

Section Loader.

(** [ss >> output] on a stream holding [field], from the C++ library: the
    number read, or [None] when the extraction fails (which stores 0). *)
Variable extract_double : string -> option Q.

(** The content of the two locals of line 134 before they are assigned. *)
Variable indeterminate : Q.

(** Lines 120-131.  The state of the stream is tested right after its
    construction, where it is good, and not after the extraction. *)
Definition parse_dbl (field : string) (output : Q) : bool * Q :=
  let ss_failed_at_construction := false in
  if ss_failed_at_construction
  then (false, output)
  else (true, match extract_double field with
              | Some v => v
              | None => 0%Q
              end).

(** Lines 87-150: the lines that remain to be read, the number of lines
    read so far and the vector built so far. *)
Fixpoint load_lines (lines : list string) (line_number : Z)
    (result : RideVector) : load_outcome :=
  match lines with
  | [] => Loaded result
  | line :: rest =>
      let line_number := line_number + 1 in
      if line_number =? 1
      then load_lines rest line_number result
      else
        let fields := split_fields line EmptyString in
        match fields with
        | [descr_field; cost_dollars_field; time_minutes_field] =>
            let '(ok_cost, cost_dollars) :=
              parse_dbl cost_dollars_field indeterminate in
            let '(ok_time, time_minutes) :=
              if ok_cost
              then parse_dbl time_minutes_field indeterminate
              else (false, indeterminate) in
            if ok_cost && ok_time
            then match new_RideItem descr_field cost_dollars time_minutes with
                 | Some item => load_lines rest line_number (result ++ [item])
                 | None => LoadAbort
                 end
            else load_lines rest line_number result
        | _ => LoadFailure
        end
  end.

(** [file] is [None] when the file cannot be opened, and the list of its
    lines otherwise. *)
Definition load_ride_database (file : option (list string)) : load_outcome :=
  match file with
  | None => LoadFailure
  | Some lines => load_lines lines 0 []
  end.

End Loader.

(** A reader of unsigned decimal integers, as a sample of [ss >> output]
    on the fields it accepts. *)
Definition digit_value (c : ascii) : option Z :=
  let n := Z.of_nat (nat_of_ascii c) in
  if (48 <=? n) && (n <=? 57) then Some (n - 48) else None.

Fixpoint read_digits (s : string) (acc : Z) : option Z :=
  match s with
  | EmptyString => Some acc
  | String c rest =>
      match digit_value c with
      | Some d => read_digits rest (10 * acc + d)
      | None => None
      end
  end.

Definition read_unsigned (s : string) : option Q :=
  match s with
  | EmptyString => None
  | _ => inject_Z <$> read_digits s 0
  end.

(** ** The table of the dynamic solver *)

(** The recurrence of lines 295-299, read as a function of the rides
    considered so far (the latest first) and of the budget level [j]. *)
Fixpoint table_value (considered : list RideItem) (j : Z) : Q :=
  match considered with
  | [] => 0%Q
  | item :: earlier =>
      if j - cost item >=? 0
      then std_max (double_add (time item) (table_value earlier (j - cost item)))
             (table_value earlier j)
      else table_value earlier j
  end.

(** The time of a selection as the table accumulates it: the rides are
    given with the latest first, and each one is added in [double] to the
    time of the rides before it. *)
Fixpoint accumulated_time (selected : list RideItem) : Q :=
  match selected with
  | [] => 0%Q
  | item :: earlier => double_add (time item) (accumulated_time earlier)
  end.

(** The sum of the costs, as an integer. *)
Fixpoint exact_cost (rides : RideVector) : Z :=
  match rides with
  | [] => 0
  | r :: rest => cost r + exact_cost rest
  end.

(** The sum of the times, as a rational. *)
Fixpoint exact_time (rides : RideVector) : Q :=
  match rides with
  | [] => 0%Q
  | r :: rest => (time r + exact_time rest)%Q
  end.

(** The greatest value of an [int]. *)
Definition INT_MAX : Z := 2147483647.

(** A cache of [n + 1] rows of [total_cost + 2] cells. *)
Definition cache_shape (n : nat) (total_cost : Z) (cache : Cache) : Prop :=
  length cache = (n + 1)%nat /\
  Forall (fun row : list Q => length row = Z.to_nat (total_cost + 2)) cache.

(** Rows [0] to [k] of the cache hold the values of the recurrence, and the
    first column holds zeros. *)
Definition rows_filled (rides : RideVector) (total_cost : Z) (k : nat)
    (cache : Cache) : Prop :=
  cache_shape (length rides) total_cost cache /\
  (forall i, (i <= length rides)%nat -> cache_get cache i 0 = Some 0%Q) /\
  (forall i j, (i <= k)%nat -> 1 <= j <= total_cost ->
     cache_get cache i j = Some (table_value (rev (take i rides)) j)).

(** ** The subsets of the exhaustive solver *)

(** The rides that a bit pattern selects: bit [k] of [bits] stands for the
    ride of index [k]. *)
Fixpoint pattern_subset (rides : RideVector) (bits : Z) : RideVector :=
  match rides with
  | [] => []
  | r :: rest =>
      if Z.odd bits
      then r :: pattern_subset rest (Z.div2 bits)
      else pattern_subset rest (Z.div2 bits)
  end.

(** One pass of the outer loop on the pattern [bits], as a function of the
    best vector so far. *)
Definition visit_pattern (rides : RideVector) (total_cost : Q)
    (best : RideVector) (bits : Z) : RideVector :=
  choose_best total_cost best (pattern_subset rides bits).

(** The test of line 360 on a vector of rides. *)
Definition within_budget (total_cost : Q) (s : RideVector) : Prop :=
  (inject_Z (total_cost_of s) <= total_cost)%Q.

(** The best vector after the patterns [0 .. m - 1] when [m <= 2^N]: empty
    as long as no non-empty subset was within the budget, and otherwise the
    first non-empty subset within the budget whose time is not exceeded by
    a later one. *)
Definition scan_state (rides : RideVector) (total_cost : Q) (m : Z)
    (best : RideVector) : Prop :=
  (best = [] /\
   forall b, 0 < b < m -> ~ within_budget total_cost (pattern_subset rides b))
  \/
  (exists b0, 0 < b0 < m /\ best = pattern_subset rides b0 /\
     within_budget total_cost best /\
     (forall b, 0 < b < m -> within_budget total_cost (pattern_subset rides b) ->
        (total_time_of (pattern_subset rides b) <= total_time_of best)%Q) /\
     (forall b, 0 < b < b0 -> within_budget total_cost (pattern_subset rides b) ->
        (total_time_of (pattern_subset rides b) < total_time_of best)%Q)).

(** The result of the exhaustive solver on [N] rides: the empty vector when
    every non-empty subset within the budget has negative time, and
    otherwise the first non-empty subset within the budget that attains the
    greatest time. *)
Definition exhaustive_result (rides : RideVector) (total_cost : Q)
    (best : RideVector) : Prop :=
  (best = [] /\
   forall b, 0 < b < 2 ^ Z.of_nat (length rides) ->
     within_budget total_cost (pattern_subset rides b) ->
     (total_time_of (pattern_subset rides b) < 0)%Q)
  \/
  (exists b0, 0 < b0 < 2 ^ Z.of_nat (length rides) /\
     best = pattern_subset rides b0 /\
     within_budget total_cost best /\
     (0 <= total_time_of best)%Q /\
     (forall b, 0 < b < 2 ^ Z.of_nat (length rides) ->
        within_budget total_cost (pattern_subset rides b) ->
        (total_time_of (pattern_subset rides b) <= total_time_of best)%Q) /\
     (forall b, 0 < b < b0 -> within_budget total_cost (pattern_subset rides b) ->
        (total_time_of (pattern_subset rides b) < total_time_of best)%Q)).

(** ** Sample data *)

(** The four rides of the worked example of the documentation. *)
Definition ride_A : RideItem := mkRideItem "A" 2 3.
Definition ride_B : RideItem := mkRideItem "B" 3 4.
Definition ride_C : RideItem := mkRideItem "C" 4 5.
Definition ride_D : RideItem := mkRideItem "D" 5 6.

(** A ride whose time is zero. *)
Definition ride_idle : RideItem := mkRideItem "idle" 1 0.

(** Rides whose times do not add up exactly in [double]: four of time
    [3 * 2^-55], one of time 1, and one of time [1 + 2^-51]. *)
Definition ride_t1 : RideItem := mkRideItem "t1" 2 (3 # 2 ^ 55).
Definition ride_t2 : RideItem := mkRideItem "t2" 2 (3 # 2 ^ 55).
Definition ride_t3 : RideItem := mkRideItem "t3" 2 (3 # 2 ^ 55).
Definition ride_t4 : RideItem := mkRideItem "t4" 2 (3 # 2 ^ 55).
Definition ride_one : RideItem := mkRideItem "one" 2 1.
Definition ride_x : RideItem := mkRideItem "x" 9 (1 + (1 # 2 ^ 51)).
Definition six_rides : RideVector :=
  [ride_t1; ride_t2; ride_t3; ride_t4; ride_one; ride_x].

(** A ride of time 1 and a ride of time [2^-60]. *)
Definition ride_big : RideItem := mkRideItem "big" 1 1.
Definition ride_tiny : RideItem := mkRideItem "tiny" 1 (1 # 2 ^ 60).

(** ** getTimeSubsets *)

(** Lines 323-328, the outer loop over the elements of [source] that are
    left: [subTemp] is a copy of [subset] in which every vector gets the
    current element at its end (line 326), and the vectors of [subTemp] are
    then put at the end of [subset], in order (line 327). *)
Fixpoint subsets_loop (source : RideVector) (subset : list RideVector)
    : list RideVector :=
  match source with
  | [] => subset
  | x :: rest =>
      let subTemp := map (fun t => t ++ [x]) subset in
      subsets_loop rest (subset ++ subTemp)
  end.

(** Lines 316-330: [subset] starts with the empty vector alone. *)
Definition getTimeSubsets (source : RideVector) : list RideVector :=
  subsets_loop source [[]].

(** ** print_2d_cache *)

Section Printer.

(** [std::setw(5) << value], the text that the stream writes for a cell. *)
Variable show_cell : Q -> string.

(** Lines 230-237: one line of text for each row. *)
Definition print_row (row : list Q) : string :=
  fold_left (fun line value => line +:+ show_cell value) row EmptyString.

(** Lines 216-239: the lines written to [std::cout], each one ended by
    [std::endl].  The second operand of [||] on line 224 reads [cache[1]]
    and is evaluated only when the first is false. *)
Definition print_2d_cache (cache : Cache) : option (list string) :=
  let title := "*** 2D Cache ***"%string in
  if (length cache =? 0)%nat
  then Some [title; "[empty]"%string]
  else if (250 <? length cache)%nat
  then Some [title; "[too large]"%string]
  else match cache !! 1%nat with
       | None => None
       | Some row =>
           if (250 <? length row)%nat
           then Some [title; "[too large]"%string]
           else Some (title :: map print_row cache)
       end.

End Printer.

(** ** Delimited records *)

(** The text of a field holds no delimiter. *)
Fixpoint free_of_delimiter (s : string) : bool :=
  match s with
  | EmptyString => true
  | String c rest => negb (Ascii.eqb c "^"%char) && free_of_delimiter rest
  end.

(** The fields of a record written one after the other with the delimiter
    between them. *)
Fixpoint join_fields (fields : list string) : string :=
  match fields with
  | [] => EmptyString
  | [field] => field
  | field :: rest => field +:+ String "^"%char (join_fields rest)
  end.

(** What the loader asks of a ride it keeps. *)
Definition loaded_ride_ok (r : RideItem) : Prop :=
  description r <> EmptyString.

(** * Properties *)

(** ** Comparisons *)

Lemma Qlt_bool_iff (a b : Q) : Qlt_bool a b = true <-> (a < b)%Q.
Proof.
  unfold Qlt_bool. rewrite negb_true_iff. split.
  - intros H. apply Qnot_le_lt. intros Hle.
    apply Qle_bool_iff in Hle. congruence.
  - intros H. destruct (Qle_bool b a) eqn:E; [|reflexivity].
    apply Qle_bool_iff in E. exfalso. apply (Qlt_not_le _ _ H E).
Qed.

Lemma Qlt_bool_false (a b : Q) : Qlt_bool a b = false <-> (b <= a)%Q.
Proof.
  unfold Qlt_bool. rewrite negb_false_iff. apply Qle_bool_iff.
Qed.

Lemma filter_test_spec (min_time max_time : Q) (r : RideItem) :
  filter_test min_time max_time r = true <->
  (min_time <= time r /\ time r <= max_time /\ 0 < time r)%Q.
Proof.
  unfold filter_test. rewrite !andb_true_iff, !Qle_bool_iff, Qlt_bool_iff.
  tauto.
Qed.

(** ** Machine arithmetic *)

(** ** Rounding to the nearest integer *)

Lemma round_half_even_bounds (N D : Z) :
  N / D <= round_half_even N D <= N / D + 1.
Proof.
  unfold round_half_even. destruct (2 * (N mod D) ?= D); [|lia|lia].
  destruct (Z.even (N / D)); lia.
Qed.

Lemma round_half_even_mono (N N' D : Z) :
  0 < D -> N <= N' -> round_half_even N D <= round_half_even N' D.
Proof.
  intros HD HN.
  pose proof (Z.div_le_mono N N' D HD HN) as Hq.
  destruct (Z.eq_dec (N / D) (N' / D)) as [Heq|Hne].
  - pose proof (Z.div_mod N D ltac:(lia)) as H1.
    pose proof (Z.div_mod N' D ltac:(lia)) as H2.
    assert (N mod D <= N' mod D) as Hr by (rewrite Heq in H1; nia).
    unfold round_half_even. rewrite <- Heq.
    destruct (Z.compare_spec (2 * (N mod D)) D),
             (Z.compare_spec (2 * (N' mod D)) D);
      destruct (Z.even (N / D)); lia.
  - pose proof (round_half_even_bounds N D).
    pose proof (round_half_even_bounds N' D). lia.
Qed.

Lemma round_half_even_exact (K D : Z) :
  0 < D -> round_half_even (K * D) D = K.
Proof.
  intros HD. unfold round_half_even.
  rewrite Z.div_mul, Z.mod_mul by lia.
  destruct (Z.compare_spec (2 * 0) D); lia.
Qed.

Lemma round_half_even_scale (k N D : Z) :
  0 < k -> 0 < D -> round_half_even (k * N) (k * D) = round_half_even N D.
Proof.
  intros Hk HD. unfold round_half_even.
  rewrite Z.div_mul_cancel_l, Z.mul_mod_distr_l by lia.
  destruct (Z.compare_spec (2 * (k * (N mod D))) (k * D)),
           (Z.compare_spec (2 * (N mod D)) D); try nia; reflexivity.
Qed.

Lemma round_half_even_le (N K D : Z) :
  0 < D -> N <= K * D -> round_half_even N D <= K.
Proof.
  intros HD HN. rewrite <- (round_half_even_exact K D HD).
  now apply round_half_even_mono.
Qed.

Lemma round_half_even_ge (N K D : Z) :
  0 < D -> K * D <= N -> K <= round_half_even N D.
Proof.
  intros HD HN. rewrite <- (round_half_even_exact K D HD).
  now apply round_half_even_mono.
Qed.

(** ** The grid of the doubles *)

Lemma div_lt_pow (N D p : Z) : 0 < D -> N / D < p -> N < p * D.
Proof.
  intros HD H. pose proof (Z.div_mod N D ltac:(lia)).
  pose proof (Z.mod_pos_bound N D HD). nia.
Qed.

Lemma div_ge_pow (N D p : Z) : 0 < D -> p <= N / D -> p * D <= N.
Proof.
  intros HD H. pose proof (Z.div_mod N D ltac:(lia)).
  pose proof (Z.mod_pos_bound N D HD). nia.
Qed.

Section Grid.

Variables N D : Z.
Hypothesis N_nonneg : 0 <= N.
Hypothesis D_pos : 0 < D.

Lemma grid_exponent_nonneg : 0 <= double_exponent N D.
Proof. unfold double_exponent. lia. Qed.

Lemma grid_quotient_lt : N / D < 2 ^ (double_exponent N D + 53).
Proof.
  pose proof (Z.div_pos N D N_nonneg D_pos) as Hq.
  destruct (Z.eq_dec (N / D) 0) as [->|Hne].
  - apply Z.pow_pos_nonneg; unfold double_exponent; lia.
  - pose proof (Z.log2_spec (N / D) ltac:(lia)) as [_ Hlt].
    eapply Z.lt_le_trans; [exact Hlt|].
    apply Z.pow_le_mono_r; unfold double_exponent; lia.
Qed.

Lemma grid_mantissa_le :
  round_half_even N (D * 2 ^ double_exponent N D) <= 2 ^ 53.
Proof.
  pose proof grid_exponent_nonneg as He.
  pose proof (Z.pow_pos_nonneg 2 _ ltac:(lia) He) as Hpow.
  apply round_half_even_le; [nia|].
  pose proof (div_lt_pow N D _ D_pos grid_quotient_lt) as H.
  rewrite Z.pow_add_r in H by lia. nia.
Qed.

Lemma grid_mantissa_ge :
  0 < double_exponent N D ->
  2 ^ 52 <= round_half_even N (D * 2 ^ double_exponent N D).
Proof.
  intros He.
  pose proof (Z.pow_pos_nonneg 2 (double_exponent N D) ltac:(lia) ltac:(lia))
    as Hpow.
  apply round_half_even_ge; [nia|].
  assert (Z.log2 (N / D) = double_exponent N D + 52) as Hlog
    by (unfold double_exponent in *; lia).
  assert (0 < N / D) as Hq.
  { destruct (Z.eq_dec (N / D) 0) as [H0|H0].
    - rewrite H0 in Hlog. cbn in Hlog. lia.
    - pose proof (Z.div_pos N D N_nonneg D_pos). lia. }
  pose proof (Z.log2_spec (N / D) Hq) as [Hle _]. rewrite Hlog in Hle.
  pose proof (div_ge_pow N D _ D_pos Hle) as H.
  rewrite Z.pow_add_r in H by lia. nia.
Qed.

Lemma grid_mantissa_nonneg :
  0 <= round_half_even N (D * 2 ^ double_exponent N D).
Proof.
  pose proof grid_exponent_nonneg as He.
  pose proof (Z.pow_pos_nonneg 2 _ ltac:(lia) He) as Hpow.
  apply (round_half_even_ge N 0); nia.
Qed.

End Grid.

Lemma double_grid_nonneg (N D : Z) : 0 <= N -> 0 < D -> 0 <= double_grid N D.
Proof.
  intros HN HD. unfold double_grid.
  pose proof (grid_mantissa_nonneg N D HN HD).
  pose proof (grid_exponent_nonneg N D).
  pose proof (Z.pow_pos_nonneg 2 (double_exponent N D)). nia.
Qed.

Lemma double_grid_mono (N N' D : Z) :
  0 <= N -> N <= N' -> 0 < D -> double_grid N D <= double_grid N' D.
Proof.
  intros HN HNN' HD. unfold double_grid.
  assert (double_exponent N D <= double_exponent N' D) as Hee'.
  { pose proof (Z.div_le_mono N N' D HD HNN').
    pose proof (Z.log2_le_mono (N / D) (N' / D) ltac:(lia)).
    unfold double_exponent. lia. }
  pose proof (grid_exponent_nonneg N D) as He.
  pose proof (Z.pow_pos_nonneg 2 _ ltac:(lia) He) as Hpow.
  destruct (Z.eq_dec (double_exponent N D) (double_exponent N' D)) as [Heq|Hne].
  - rewrite <- Heq. apply Z.mul_le_mono_nonneg_r; [lia|].
    apply round_half_even_mono; [nia | exact HNN'].
  - pose proof (grid_mantissa_le N D HN HD) as Hup.
    pose proof (grid_mantissa_ge N' D ltac:(lia) HD ltac:(lia)) as Hlow.
    pose proof (Z.pow_pos_nonneg 2 (double_exponent N' D) ltac:(lia) ltac:(lia))
      as Hpow'.
    assert (2 ^ 53 * 2 ^ double_exponent N D
            <= 2 ^ 52 * 2 ^ double_exponent N' D) as Hmid.
    { rewrite <- !Z.pow_add_r by lia. apply Z.pow_le_mono_r; lia. }
    nia.
Qed.

Lemma double_grid_scale (k N D : Z) :
  0 < k -> 0 < D -> double_grid (k * N) (k * D) = double_grid N D.
Proof.
  intros Hk HD. unfold double_grid, double_exponent.
  rewrite Z.div_mul_cancel_l by lia.
  set (e := Z.max 0 (Z.log2 (N / D) - 52)).
  pose proof (Z.pow_pos_nonneg 2 e ltac:(lia) ltac:(subst e; lia)).
  rewrite <- Z.mul_assoc, round_half_even_scale by nia. reflexivity.
Qed.

Lemma double_grid_compat (N1 D1 N2 D2 : Z) :
  0 <= N1 -> 0 < D1 -> 0 < D2 -> N1 * D2 <= N2 * D1 ->
  double_grid N1 D1 <= double_grid N2 D2.
Proof.
  intros HN1 HD1 HD2 Hle.
  rewrite <- (double_grid_scale D2 N1 D1), <- (double_grid_scale D1 N2 D2) by lia.
  replace (D1 * D2) with (D2 * D1) by lia.
  apply double_grid_mono; nia.
Qed.

(** A value of the grid is kept by the rounding. *)
Lemma double_grid_fixed (m e : Z) :
  0 <= e -> 0 <= m <= 2 ^ 53 -> (e = 0 \/ 2 ^ 52 <= m) ->
  double_grid (m * 2 ^ e) 1 = m * 2 ^ e.
Proof.
  intros He Hm Hshape. unfold double_grid, double_exponent.
  rewrite Z.div_1_r, Z.mul_1_l.
  pose proof (Z.pow_pos_nonneg 2 e ltac:(lia) He) as Hpow.
  destruct (Z.eq_dec m 0) as [->|Hm0]; [reflexivity|].
  rewrite Z.log2_mul_pow2 by lia.
  destruct (Z.eq_dec m (2 ^ 53)) as [->|Hm53].
  - change (Z.log2 (2 ^ 53)) with 53.
    replace (Z.max 0 (e + 53 - 52)) with (e + 1) by lia.
    replace (2 ^ 53 * 2 ^ e) with (2 ^ 52 * 2 ^ (e + 1))
      by (rewrite Z.pow_add_r by lia; lia).
    rewrite round_half_even_exact; [reflexivity|].
    apply Z.pow_pos_nonneg; lia.
  - destruct (Z_lt_le_dec m (2 ^ 52)) as [Hsmall|Hbig].
    + assert (e = 0) as -> by lia.
      assert (Z.log2 m < 52) as Hlog by (apply Z.log2_lt_pow2; lia).
      replace (Z.max 0 (0 + Z.log2 m - 52)) with 0 by lia.
      change (2 ^ 0) with 1. rewrite !Z.mul_1_r.
      rewrite <- (Z.mul_1_r m) at 1. now rewrite round_half_even_exact.
    + assert (Z.log2 m = 52) as ->.
      { apply Z.log2_unique; [lia|]. change (2 ^ Z.succ 52) with (2 ^ 53). lia. }
      replace (Z.max 0 (e + 52 - 52)) with e by lia.
      now rewrite round_half_even_exact.
Qed.

Lemma double_grid_again (N D : Z) :
  0 <= N -> 0 < D -> double_grid (double_grid N D) 1 = double_grid N D.
Proof.
  intros HN HD. unfold double_grid at 2 3.
  apply double_grid_fixed.
  - apply grid_exponent_nonneg.
  - split; [now apply grid_mantissa_nonneg | now apply grid_mantissa_le].
  - pose proof (grid_exponent_nonneg N D).
    destruct (Z.eq_dec (double_exponent N D) 0) as [H0|H0];
      [now left | right].
    apply grid_mantissa_ge; lia.
Qed.

Lemma infinity_units_fixed : double_grid infinity_units 1 = infinity_units.
Proof.
  change infinity_units with (2 ^ 52 * 2 ^ 2046).
  apply double_grid_fixed; [lia | | right; lia].
  split; [lia|]. apply Z.pow_le_mono_r; lia.
Qed.

(** ** Rounding a rational *)

Lemma units_scale_pos : 0 < 2 ^ 1074.
Proof. apply Z.pow_pos_nonneg; lia. Qed.

Lemma infinity_units_pos : 0 < infinity_units.
Proof. apply Z.pow_pos_nonneg; lia. Qed.

Lemma double_units_mono (a b : Q) :
  (a <= b)%Q -> double_units a <= double_units b.
Proof.
  unfold Qle, double_units. intros Hle.
  pose proof units_scale_pos as HS. pose proof infinity_units_pos as HI.
  pose proof (Pos2Z.is_pos (Qden a)). pose proof (Pos2Z.is_pos (Qden b)).
  destruct (Z.leb_spec 0 (Qnum a * 2 ^ 1074)) as [Ha|Ha],
           (Z.leb_spec 0 (Qnum b * 2 ^ 1074)) as [Hb|Hb].
  - apply Z.min_le_compat_r. apply double_grid_compat; nia.
  - exfalso. nia.
  - pose proof (double_grid_nonneg (- (Qnum a * 2 ^ 1074)) (Zpos (Qden a))
                  ltac:(lia) ltac:(lia)).
    pose proof (double_grid_nonneg (Qnum b * 2 ^ 1074) (Zpos (Qden b))
                  ltac:(lia) ltac:(lia)).
    lia.
  - apply (proj1 (Z.opp_le_mono _ _)). apply Z.min_le_compat_r.
    apply double_grid_compat; nia.
Qed.

Lemma double_units_bounds (a : Q) :
  - infinity_units <= double_units a <= infinity_units.
Proof.
  unfold double_units. pose proof infinity_units_pos.
  pose proof (Pos2Z.is_pos (Qden a)). pose proof units_scale_pos.
  destruct (Z.leb_spec 0 (Qnum a * 2 ^ 1074)).
  - pose proof (double_grid_nonneg (Qnum a * 2 ^ 1074) (Zpos (Qden a))
                  ltac:(lia) ltac:(lia)). lia.
  - pose proof (double_grid_nonneg (- (Qnum a * 2 ^ 1074)) (Zpos (Qden a))
                  ltac:(lia) ltac:(lia)). lia.
Qed.

Lemma double_units_again (a : Q) :
  double_units (Qmake (double_units a) (2 ^ 1074)) = double_units a.
Proof.
  pose proof units_scale_pos as HS. pose proof infinity_units_pos as HI.
  pose proof (Pos2Z.is_pos (Qden a)) as HD.
  assert (Zpos (2 ^ 1074) = 2 ^ 1074) as HP by (now rewrite Pos2Z.inj_pow).
  assert (forall Y, 0 <= Y -> double_grid Y 1 = Y ->
            double_grid (Y * 2 ^ 1074) (2 ^ 1074) = Y) as Hfix.
  { intros Y HY HYfix.
    rewrite (Z.mul_comm Y), <- (Z.mul_1_r (2 ^ 1074)) at 1.
    rewrite <- (Z.mul_1_r (2 ^ 1074)) at 2.
    now rewrite double_grid_scale by lia. }
  assert (forall N, 0 <= N ->
            double_grid (Z.min (double_grid N (Zpos (Qden a))) infinity_units) 1
            = Z.min (double_grid N (Zpos (Qden a))) infinity_units) as Hmin.
  { intros N HN.
    destruct (Z.min_spec (double_grid N (Zpos (Qden a))) infinity_units)
      as [[_ ->]|[_ ->]].
    - now apply double_grid_again.
    - apply infinity_units_fixed. }
  unfold double_units at 1. cbn [Qnum Qden]. rewrite HP.
  unfold double_units.
  destruct (Z.leb_spec 0 (Qnum a * 2 ^ 1074)) as [Ha|Ha].
  - set (Y := Z.min (double_grid (Qnum a * 2 ^ 1074) (Zpos (Qden a)))
                infinity_units).
    assert (0 <= Y).
    { pose proof (double_grid_nonneg (Qnum a * 2 ^ 1074) (Zpos (Qden a))
                    Ha HD). subst Y. lia. }
    destruct (Z.leb_spec 0 (Y * 2 ^ 1074)); [|nia].
    rewrite Hfix; [subst Y; lia | lia | now apply Hmin].
  - set (Y := Z.min (double_grid (- (Qnum a * 2 ^ 1074)) (Zpos (Qden a)))
                infinity_units).
    assert (0 <= Y).
    { pose proof (double_grid_nonneg (- (Qnum a * 2 ^ 1074)) (Zpos (Qden a))
                    ltac:(lia) HD). subst Y. lia. }
    destruct (Z.leb_spec 0 (- Y * 2 ^ 1074)) as [Hz|Hz].
    + assert (Y = 0) as -> by nia. reflexivity.
    + replace (- (- Y * 2 ^ 1074)) with (Y * 2 ^ 1074) by lia.
      rewrite Hfix; [subst Y; lia | lia | apply Hmin; lia].
Qed.

Lemma double_round_units (a : Q) :
  (double_round a == Qmake (double_units a) (2 ^ 1074))%Q.
Proof. apply Qred_correct. Qed.

Lemma double_round_mono (a b : Q) :
  (a <= b)%Q -> (double_round a <= double_round b)%Q.
Proof.
  intros Hle. rewrite !double_round_units. unfold Qle. cbn [Qnum Qden].
  apply Z.mul_le_mono_nonneg_r; [lia|]. now apply double_units_mono.
Qed.

Lemma double_units_compat (a b : Q) :
  (a == b)%Q -> double_units a = double_units b.
Proof.
  intros Heq. apply Z.le_antisymm; apply double_units_mono; rewrite Heq;
    apply Qle_refl.
Qed.

#[global] Instance double_round_proper : Proper (Qeq ==> Qeq) double_round.
Proof.
  intros a b Heq. apply Qle_antisym; apply double_round_mono; rewrite Heq;
    apply Qle_refl.
Qed.

Lemma double_round_idempotent (a : Q) :
  (double_round (double_round a) == double_round a)%Q.
Proof.
  rewrite (double_round_units (double_round a)).
  rewrite (double_units_compat _ _ (double_round_units a)).
  rewrite double_units_again. symmetry. apply double_round_units.
Qed.

Lemma double_round_bounds (a : Q) :
  (- double_infinity <= double_round a <= double_infinity)%Q.
Proof.
  pose proof (double_units_bounds a) as [Hlo Hhi].
  assert (Zpos (2 ^ 1074) = 2 ^ 1074) as HP by (now rewrite Pos2Z.inj_pow).
  rewrite !double_round_units. unfold double_infinity, Qle, inject_Z, Qopp.
  cbn [Qnum Qden]. rewrite HP.
  change infinity_units with (2 ^ 1024 * 2 ^ 1074) in Hlo, Hhi.
  split; lia.
Qed.


(** ** Adding two doubles *)

Lemma double_infinity_pos : (0 < double_infinity)%Q.
Proof. reflexivity. Qed.

Lemma double_round_infinity : (double_round double_infinity == double_infinity)%Q.
Proof. reflexivity. Qed.

Lemma Qle_bool_false (a b : Q) : Qle_bool a b = false <-> (b < a)%Q.
Proof.
  split.
  - intros H. apply Qnot_le_lt. intros Hle. apply Qle_bool_iff in Hle.
    congruence.
  - intros H. destruct (Qle_bool a b) eqn:E; [|reflexivity].
    apply Qle_bool_iff in E. exfalso. exact (Qlt_not_le _ _ H E).
Qed.

(** The three cases of [double_add]. *)
Lemma double_add_cases (a b : Q) :
  ((double_infinity <= a \/ double_infinity <= b)%Q /\
   double_add a b = double_infinity) \/
  ((a < double_infinity /\ b < double_infinity)%Q /\
   (a <= - double_infinity \/ b <= - double_infinity)%Q /\
   double_add a b = (- double_infinity)%Q) \/
  ((a < double_infinity /\ b < double_infinity)%Q /\
   (- double_infinity < a /\ - double_infinity < b)%Q /\
   double_add a b = double_round (a + b)).
Proof.
  unfold double_add.
  destruct (Qle_bool double_infinity a) eqn:E1;
    [apply Qle_bool_iff in E1; left; split; [now left | reflexivity]|].
  destruct (Qle_bool double_infinity b) eqn:E2;
    [apply Qle_bool_iff in E2; left; split; [now right | reflexivity]|].
  apply Qle_bool_false in E1. apply Qle_bool_false in E2. cbn [orb]. right.
  destruct (Qle_bool a (- double_infinity)) eqn:E3;
    [apply Qle_bool_iff in E3; left; split; [tauto|]; split;
       [now left | reflexivity]|].
  destruct (Qle_bool b (- double_infinity)) eqn:E4;
    [apply Qle_bool_iff in E4; left; split; [tauto|]; split;
       [now right | reflexivity]|].
  apply Qle_bool_false in E3. apply Qle_bool_false in E4. cbn [orb]. right.
  tauto.
Qed.

Lemma double_add_bounds (a b : Q) :
  (- double_infinity <= double_add a b <= double_infinity)%Q.
Proof.
  pose proof double_infinity_pos.
  destruct (double_add_cases a b) as [[_ ->]|[(_ & _ & ->)|(_ & _ & ->)]].
  - split; lra.
  - split; lra.
  - apply double_round_bounds.
Qed.

Lemma double_add_mono_r (a b b' : Q) :
  (b <= b')%Q -> (double_add a b <= double_add a b')%Q.
Proof.
  intros Hle. pose proof double_infinity_pos.
  pose proof (double_add_bounds a b) as [Hlo Hhi].
  pose proof (double_add_bounds a b') as [Hlo' Hhi'].
  destruct (double_add_cases a b) as [[Hc E]|[(Hf & Hc & E)|(Hf & Hc & E)]];
    destruct (double_add_cases a b')
      as [[Hc' E']|[(Hf' & Hc' & E')|(Hf' & Hc' & E')]];
    rewrite ?E, ?E' in *; try lra.
  apply double_round_mono. lra.
Qed.

Lemma double_add_comm (a b : Q) : (double_add a b == double_add b a)%Q.
Proof.
  destruct (double_add_cases a b) as [[Hc E]|[(Hf & Hc & E)|(Hf & Hc & E)]];
    destruct (double_add_cases b a)
      as [[Hc' E']|[(Hf' & Hc' & E')|(Hf' & Hc' & E')]];
    rewrite E, E'; try lra.
  apply double_round_proper. lra.
Qed.

Lemma double_add_mono_l (a a' b : Q) :
  (a <= a')%Q -> (double_add a b <= double_add a' b)%Q.
Proof.
  intros Hle. rewrite (double_add_comm a b), (double_add_comm a' b).
  now apply double_add_mono_r.
Qed.

#[global] Instance double_add_proper : Proper (Qeq ==> Qeq ==> Qeq) double_add.
Proof.
  intros a a' Ha b b' Hb. apply Qle_antisym.
  - apply Qle_trans with (double_add a' b).
    + apply double_add_mono_l. rewrite Ha. apply Qle_refl.
    + apply double_add_mono_r. rewrite Hb. apply Qle_refl.
  - apply Qle_trans with (double_add a' b).
    + apply double_add_mono_r. rewrite Hb. apply Qle_refl.
    + apply double_add_mono_l. rewrite Ha. apply Qle_refl.
Qed.

(** The result of an addition is a [double]. *)
Lemma double_add_fixed (a b : Q) :
  (double_round (double_add a b) == double_add a b)%Q.
Proof.
  destruct (double_add_cases a b) as [[_ ->]|[(_ & _ & ->)|(_ & _ & ->)]].
  - reflexivity.
  - reflexivity.
  - apply double_round_idempotent.
Qed.


(** Adding a time that is not positive to a [double] that is not negative
    does not give more than that [double]. *)
Lemma double_add_nonpos (t x : Q) :
  (t <= 0)%Q -> (0 <= x)%Q -> (double_round x == x)%Q ->
  (double_add t x <= x)%Q.
Proof.
  intros Ht Hx Hfix. pose proof double_infinity_pos.
  pose proof (double_round_bounds x) as [_ Hhi]. rewrite Hfix in Hhi.
  destruct (double_add_cases t x) as [[Hc ->]|[(_ & _ & ->)|(_ & _ & ->)]].
  - lra.
  - lra.
  - rewrite <- Hfix at 2. apply double_round_mono. lra.
Qed.


(** ** The rounded sum and the addition of binary64 *)

(** On every pair of the sample values [double_add] gives the sum that the
    library's specification of the binary64 addition gives: the cases of
    exact sums, of ties, of subnormal results, of overflow and of infinite
    operands are among them. *)
Lemma double_add_binary64_samples :
  forallb (fun x => forallb (double_add_agrees x) binary64_samples)
    binary64_samples = true.
Proof. vm_compute. reflexivity. Qed.

(** The times of the sample rides are doubles. *)
Lemma sample_times_are_doubles :
  Forall (fun r => (double_round (time r) == time r)%Q)
    [ride_t1; ride_one; ride_x; ride_big; ride_tiny].
Proof. repeat constructor; vm_compute; reflexivity. Qed.

(** The sum of the doubles nearest to [0.1] and [0.2] is above the double
    nearest to [0.3]. *)
Lemma double_add_tenths :
  (double_round (3 # 10)
   < double_add (double_round (1 # 10)) (double_round (2 # 10)))%Q.
Proof. vm_compute. reflexivity. Qed.

(** The total time of a vector depends on the order of its rides. *)
Lemma total_time_of_order :
  ~ (total_time_of [mkRideItem "a" 1 (double_round (1 # 10));
                    mkRideItem "b" 1 (double_round (2 # 10));
                    mkRideItem "c" 1 (double_round (3 # 10))]
     == total_time_of [mkRideItem "c" 1 (double_round (3 # 10));
                       mkRideItem "b" 1 (double_round (2 # 10));
                       mkRideItem "a" 1 (double_round (1 # 10))])%Q.
Proof. intros H. vm_compute in H. discriminate. Qed.

(** ** Integers as doubles *)

Lemma double_grid_integer (z : Z) :
  0 <= z <= 2 ^ 53 -> double_grid (z * 2 ^ 1074) 1 = z * 2 ^ 1074.
Proof.
  intros Hz.
  destruct (Z.eq_dec z 0) as [->|Hz0]; [reflexivity|].
  destruct (Z.eq_dec z (2 ^ 53)) as [->|Hz53].
  { change (2 ^ 53 * 2 ^ 1074) with (2 ^ 52 * 2 ^ 1075).
    apply double_grid_fixed; [lia | lia | right; lia]. }
  pose proof (Z.log2_spec z ltac:(lia)) as [Hlo Hhi].
  pose proof (Z.log2_nonneg z) as Hl0.
  assert (Z.log2 z < 53) as Hl by (apply Z.log2_lt_pow2; lia).
  replace (z * 2 ^ 1074)
    with (z * 2 ^ (52 - Z.log2 z) * 2 ^ (1022 + Z.log2 z)).
  2:{ rewrite <- Z.mul_assoc, <- Z.pow_add_r by lia. do 2 f_equal. lia. }
  pose proof (Z.pow_pos_nonneg 2 (52 - Z.log2 z) ltac:(lia) ltac:(lia)) as Hk.
  assert (2 ^ 52 = 2 ^ Z.log2 z * 2 ^ (52 - Z.log2 z)) as E52
    by (rewrite <- Z.pow_add_r by lia; f_equal; lia).
  assert (2 ^ 53 = 2 ^ Z.succ (Z.log2 z) * 2 ^ (52 - Z.log2 z)) as E53
    by (rewrite <- Z.pow_add_r by lia; f_equal; lia).
  apply double_grid_fixed; [lia | | right].
  - split; [lia|]. rewrite E53. nia.
  - rewrite E52. nia.
Qed.

Lemma double_round_integer (z : Z) :
  0 <= z <= 2 ^ 53 -> (double_round (inject_Z z) == inject_Z z)%Q.
Proof.
  intros Hz. pose proof units_scale_pos as HS.
  rewrite double_round_units. unfold double_units, inject_Z.
  cbn [Qnum Qden].
  destruct (Z.leb_spec 0 (z * 2 ^ 1074)) as [_|Hneg]; [|nia].
  rewrite (double_grid_integer z Hz).
  assert (z * 2 ^ 1074 <= infinity_units) as Hfin.
  { apply Z.le_trans with (2 ^ 53 * 2 ^ 1074); [nia|].
    vm_compute. discriminate. }
  rewrite Z.min_l by exact Hfin.
  unfold Qeq. cbn [Qnum Qden]. rewrite Pos2Z.inj_pow. lia.
Qed.

(** For fewer than 53 rides the guard of the exhaustive loop is the
    comparison of integers, at every value that [bits] takes. *)
Lemma guard_in_double_exact (bits : Z) (n : nat) :
  (n < 53)%nat -> 0 <= bits <= 2 ^ Z.of_nat n + 1 ->
  guard_in_double bits n = (bits <=? 2 ^ Z.of_nat n).
Proof.
  intros Hn Hbits. unfold guard_in_double.
  assert (2 ^ Z.of_nat n <= 2 ^ 52) as Hpow
    by (apply Z.pow_le_mono_r; lia).
  assert (0 <= bits <= 2 ^ 53) as Hrange
    by (change (2 ^ 53) with (2 * 2 ^ 52); lia).
  destruct (Z.leb_spec bits (2 ^ Z.of_nat n)) as [Hle|Hgt].
  - apply Qle_bool_iff. rewrite (double_round_integer bits Hrange).
    unfold Qle. cbn. lia.
  - apply Qle_bool_false. rewrite (double_round_integer bits Hrange).
    unfold Qlt. cbn. lia.
Qed.

(** With 53 rides the conversion rounds [2^53 + 1] to [2^53], and the guard
    of the source holds once more than the comparison of integers. *)
Lemma guard_in_double_53 :
  guard_in_double (2 ^ 53 + 1) 53 = true /\
  (2 ^ 53 + 1 <=? 2 ^ Z.of_nat 53) = false.
Proof. split; vm_compute; reflexivity. Qed.

(** ** The wrap-around of int *)

Lemma int_wrap_small (z : Z) : - 2 ^ 31 <= z < 2 ^ 31 -> int_wrap z = z.
Proof.
  intros Hz. unfold int_wrap. rewrite Z.mod_small; lia.
Qed.

Lemma int_wrap_add (a b : Z) : int_wrap (int_wrap a + b) = int_wrap (a + b).
Proof.
  unfold int_wrap.
  replace ((a + 2 ^ 31) mod 2 ^ 32 - 2 ^ 31 + b + 2 ^ 31)
    with ((a + 2 ^ 31) mod 2 ^ 32 + b) by lia.
  rewrite Zplus_mod_idemp_l. f_equal. f_equal. lia.
Qed.

(** ** The filter *)

Section Filter.

Variables min_time max_time : Q.

Lemma filter_loop_take (total_size : Z) (source acc : RideVector) :
  Z.of_nat (length acc) < total_size ->
  filter_loop source min_time max_time total_size acc =
  take (Z.to_nat total_size)
    (acc ++ List.filter (filter_test min_time max_time) source).
Proof.
  revert acc. induction source as [|element rest IH]; intros acc Hlen.
  - cbn. rewrite app_nil_r, take_ge; [reflexivity | lia].
  - cbn [filter_loop List.filter].
    destruct (filter_test min_time max_time element) eqn:Et.
    + destruct (Z.geb_spec (Z.of_nat (length (acc ++ [element]))) total_size)
        as [Hge|Hlt].
      * rewrite length_app in Hge. cbn in Hge.
        replace (acc ++ element :: List.filter (filter_test min_time max_time) rest)
          with ((acc ++ [element]) ++ List.filter (filter_test min_time max_time) rest)
          by (now rewrite <- app_assoc).
        rewrite take_app_length'; [reflexivity|].
        rewrite length_app. cbn. lia.
      * rewrite IH by lia. now rewrite <- app_assoc.
    + destruct (Z.geb_spec (Z.of_nat (length acc)) total_size); [lia|].
      now apply IH.
Qed.

Lemma filter_loop_all (total_size : Z) (source acc : RideVector) :
  Forall (fun r => filter_test min_time max_time r = true) source ->
  filter_loop source min_time max_time total_size acc =
  acc ++ take (Z.to_nat (Z.max 1 (total_size - Z.of_nat (length acc)))) source.
Proof.
  revert acc. induction source as [|element rest IH]; intros acc Hall.
  - cbn. now rewrite take_nil, app_nil_r.
  - apply Forall_cons in Hall as [He Hrest]. cbv beta in He.
    cbn [filter_loop]. rewrite He.
    destruct (Z.geb_spec (Z.of_nat (length (acc ++ [element]))) total_size)
      as [Hge|Hlt]; rewrite length_app in *; cbn [length] in *.
    + replace (Z.to_nat (Z.max 1 (total_size - Z.of_nat (length acc))))
        with 1%nat by lia.
      reflexivity.
    + rewrite IH by assumption. rewrite length_app. cbn [length].
      replace (Z.to_nat (Z.max 1 (total_size - Z.of_nat (length acc))))
        with (S (Z.to_nat (Z.max 1 (total_size - Z.of_nat (length acc + 1)))))
        by lia.
      cbn [take]. now rewrite <- app_assoc.
Qed.

Lemma filter_loop_keeps (total_size : Z) (P : RideItem -> Prop)
    (source acc : RideVector) :
  (forall r, filter_test min_time max_time r = true -> P r) ->
  Forall P acc ->
  Forall P (filter_loop source min_time max_time total_size acc).
Proof.
  intros HP. revert acc. induction source as [|element rest IH]; intros acc Hacc.
  - exact Hacc.
  - cbn [filter_loop].
    assert (Forall P (if filter_test min_time max_time element
                      then acc ++ [element] else acc)) as Hacc'.
    { destruct (filter_test min_time max_time element) eqn:Et; [|exact Hacc].
      apply Forall_app. split; [exact Hacc|].
      constructor; [now apply HP | constructor]. }
    destruct (_ >=? _); [exact Hacc' | now apply IH].
Qed.

Lemma filter_loop_length (total_size : Z) (source acc : RideVector) :
  Z.of_nat (length (filter_loop source min_time max_time total_size acc))
  <= Z.max (Z.of_nat (length acc) + 1) total_size.
Proof.
  revert acc. induction source as [|element rest IH]; intros acc.
  - cbn. lia.
  - cbn [filter_loop].
    set (acc' := if filter_test min_time max_time element
                 then acc ++ [element] else acc).
    assert (Z.of_nat (length acc') <= Z.of_nat (length acc) + 1) as Hacc'.
    { subst acc'. destruct (filter_test _ _ _);
        [rewrite length_app; cbn|]; lia. }
    destruct (Z.geb_spec (Z.of_nat (length acc')) total_size) as [Hge|Hlt].
    + lia.
    + specialize (IH acc'). lia.
Qed.

End Filter.

(** ** Loops *)

Lemma for_each_ind {A St : Type} (body : A -> St -> option St)
    (P : nat -> St -> Prop) (l : list A) (s : St) :
  P 0%nat s ->
  (forall k x s0, l !! k = Some x -> P k s0 ->
     exists s1, body x s0 = Some s1 /\ P (S k) s1) ->
  exists s', for_each body l s = Some s' /\ P (length l) s'.
Proof.
  revert P s. induction l as [|x l IH]; intros P s H0 Hstep.
  - exists s. split; [reflexivity | exact H0].
  - destruct (Hstep 0%nat x s eq_refl H0) as (s1 & Hb & H1).
    cbn [for_each]. rewrite Hb.
    destruct (IH (fun k => P (S k)) s1 H1) as (s' & Hf & HP).
    { intros k y s2 Hk HPk. exact (Hstep (S k) y s2 Hk HPk). }
    exists s'. split; assumption.
Qed.

Lemma for_each_app {A St : Type} (body : A -> St -> option St)
    (l1 l2 : list A) (s : St) :
  for_each body (l1 ++ l2) s =
  match for_each body l1 s with
  | Some s' => for_each body l2 s'
  | None => None
  end.
Proof.
  revert s. induction l1 as [|x l1 IH]; intros s; [reflexivity|].
  cbn [for_each app]. destruct (body x s); [apply IH | reflexivity].
Qed.

(** ** The cache *)

Lemma cache_get_is_Some (n : nat) (B : Z) (cache : Cache) (i : nat) (j : Z) :
  cache_shape n B cache -> (i <= n)%nat -> 0 <= j <= B + 1 ->
  exists q, cache_get cache i j = Some q.
Proof.
  intros [Hlen Hrows] Hi Hj. unfold cache_get.
  destruct (Z.ltb_spec j 0); [lia|].
  destruct (lookup_lt_is_Some_2 cache i) as [row Hrow]; [lia|].
  rewrite Hrow.
  pose proof (proj1 (Forall_lookup _ _) Hrows i row Hrow) as Hr.
  cbv beta in Hr.
  destruct (lookup_lt_is_Some_2 row (Z.to_nat j)) as [q Hq]; [lia|].
  exists q. exact Hq.
Qed.

Lemma cache_set_spec (n : nat) (B : Z) (cache : Cache) (i : nat) (j : Z) (v : Q) :
  cache_shape n B cache -> (i <= n)%nat -> 0 <= j <= B + 1 ->
  exists cache',
    cache_set cache i j v = Some cache' /\
    cache_shape n B cache' /\
    cache_get cache' i j = Some v /\
    (forall i' j', (i' <> i \/ j' <> j) ->
       cache_get cache' i' j' = cache_get cache i' j').
Proof.
  intros [Hlen Hrows] Hi Hj. unfold cache_set.
  destruct (Z.ltb_spec j 0); [lia|].
  destruct (lookup_lt_is_Some_2 cache i) as [row Hrow]; [lia|].
  rewrite Hrow.
  pose proof (proj1 (Forall_lookup _ _) Hrows i row Hrow) as Hr.
  cbv beta in Hr.
  destruct (Nat.ltb_spec (Z.to_nat j) (length row)); [|lia].
  eexists. split; [reflexivity|]. split; [|split].
  - split; [now rewrite length_insert|].
    apply Forall_insert; [exact Hrows|]. now rewrite length_insert.
  - unfold cache_get. destruct (Z.ltb_spec j 0); [lia|].
    rewrite list_lookup_insert_eq by lia.
    now rewrite list_lookup_insert_eq by lia.
  - intros i' j' Hne. unfold cache_get.
    destruct (Z.ltb_spec j' 0); [reflexivity|].
    destruct (decide (i' = i)) as [->|Hi'].
    + rewrite list_lookup_insert_eq by lia. rewrite Hrow.
      apply list_lookup_insert_ne. lia.
    + now rewrite list_lookup_insert_ne by congruence.
Qed.

Lemma init_cache_shape (n : nat) (B : Z) : cache_shape n B (init_cache n B).
Proof.
  unfold init_cache. split; [apply length_replicate|].
  apply Forall_replicate. apply length_replicate.
Qed.

Lemma init_cache_get (n : nat) (B : Z) (i : nat) (j : Z) :
  (i <= n)%nat -> 0 <= j <= B + 1 ->
  cache_get (init_cache n B) i j = Some 0%Q.
Proof.
  intros Hi Hj. unfold cache_get, init_cache.
  destruct (Z.ltb_spec j 0); [lia|].
  rewrite lookup_replicate_2 by lia.
  apply lookup_replicate_2. lia.
Qed.

(** ** The recurrence *)

Lemma std_max_l (a b : Q) : (a <= std_max a b)%Q.
Proof.
  unfold std_max. destruct (Qlt_bool a b) eqn:E.
  - apply Qlt_bool_iff in E. lra.
  - lra.
Qed.

Lemma std_max_r (a b : Q) : (b <= std_max a b)%Q.
Proof.
  unfold std_max. destruct (Qlt_bool a b) eqn:E.
  - lra.
  - apply Qlt_bool_false in E. lra.
Qed.

Lemma std_max_mono (a b a' b' : Q) :
  (a <= a')%Q -> (b <= b')%Q -> (std_max a b <= std_max a' b')%Q.
Proof.
  intros Ha Hb. pose proof (std_max_l a' b'). pose proof (std_max_r a' b').
  unfold std_max at 1. destruct (Qlt_bool a b); lra.
Qed.

Lemma table_value_no_budget (considered : list RideItem) (j : Z) :
  Forall valid_ride considered -> j <= 0 -> table_value considered j = 0%Q.
Proof.
  intros Hvalid Hj. induction Hvalid as [|item earlier Hitem _ IH];
    [reflexivity|].
  cbn [table_value]. unfold valid_ride in Hitem.
  destruct (Z.geb_spec (j - cost item) 0); [lia | exact IH].
Qed.

Lemma table_value_mono (considered : list RideItem) (j1 j2 : Z) :
  j1 <= j2 -> (table_value considered j1 <= table_value considered j2)%Q.
Proof.
  revert j1 j2. induction considered as [|item earlier IH]; intros j1 j2 Hj.
  - cbn. lra.
  - cbn [table_value].
    destruct (Z.geb_spec (j1 - cost item) 0), (Z.geb_spec (j2 - cost item) 0).
    + apply std_max_mono; [|now apply IH].
      apply double_add_mono_r. apply IH. lia.
    + lia.
    + pose proof (IH j1 j2 Hj).
      pose proof (std_max_r
                    (double_add (time item)
                       (table_value earlier (j2 - cost item)))
                    (table_value earlier j2)).
      lra.
    + now apply IH.
Qed.

Lemma table_value_nonneg (considered : list RideItem) (j : Z) :
  (0 <= table_value considered j)%Q.
Proof.
  revert j. induction considered as [|item earlier IH]; intros j.
  - cbn. lra.
  - cbn [table_value]. destruct (j - cost item >=? 0); [|apply IH].
    pose proof (IH j).
    pose proof (std_max_r
                  (double_add (time item) (table_value earlier (j - cost item)))
                  (table_value earlier j)).
    lra.
Qed.

(** Every value of the table is a [double]. *)
Lemma table_value_fixed (considered : list RideItem) (j : Z) :
  (double_round (table_value considered j) == table_value considered j)%Q.
Proof.
  revert j. induction considered as [|item earlier IH]; intros j.
  - reflexivity.
  - cbn [table_value]. destruct (j - cost item >=? 0); [|apply IH].
    unfold std_max. destruct (Qlt_bool _ _); [apply IH|].
    apply double_add_fixed.
Qed.

Lemma rev_take_S (rides : RideVector) (i : nat) (item : RideItem) :
  rides !! i = Some item ->
  rev (take (S i) rides) = item :: rev (take i rides).
Proof.
  intros Hi. rewrite (take_S_r _ _ _ Hi). apply rev_unit.
Qed.

(** ** Filling the cache *)

Section Fill.

Variable rides : RideVector.
Variable B : Z.
Hypothesis rides_valid : Forall valid_ride rides.

Lemma rows_filled_get (k : nat) (cache : Cache) (i : nat) (j : Z) :
  rows_filled rides B k cache -> (i <= k)%nat -> (k <= length rides)%nat ->
  0 <= j <= B ->
  cache_get cache i j = Some (table_value (rev (take i rides)) j).
Proof.
  intros (Hshape & Hcol & Hrows) Hi Hk Hj.
  destruct (decide (j = 0)) as [->|Hj0].
  - rewrite Hcol by lia. f_equal. symmetry.
    apply table_value_no_budget; [|lia].
    apply Forall_rev. now apply Forall_take.
  - apply Hrows; lia.
Qed.

Lemma fill_cell_spec (i : nat) (j : Z) (cache : Cache) :
  (i < length rides)%nat -> 1 <= j <= B ->
  rows_filled rides B i cache ->
  exists cache',
    fill_cell rides (S i) j cache = Some cache' /\
    cache_shape (length rides) B cache' /\
    cache_get cache' (S i) j = Some (table_value (rev (take (S i) rides)) j) /\
    (forall i' j', (i' <> S i \/ j' <> j) ->
       cache_get cache' i' j' = cache_get cache i' j').
Proof.
  intros Hi Hj Hfilled.
  destruct (lookup_lt_is_Some_2 rides i Hi) as [item Hitem].
  pose proof (proj1 (Forall_lookup _ _) rides_valid i item Hitem) as Hcost.
  unfold valid_ride in Hcost.
  unfold fill_cell. replace (S i - 1)%nat with i by lia. rewrite Hitem.
  rewrite (rev_take_S _ _ _ Hitem). cbn [table_value].
  rewrite (rows_filled_get i cache i j Hfilled) by lia.
  destruct (Z.geb_spec (j - cost item) 0).
  - rewrite (rows_filled_get i cache i (j - cost item) Hfilled) by lia.
    apply cache_set_spec; [apply Hfilled | lia | lia].
  - apply cache_set_spec; [apply Hfilled | lia | lia].
Qed.

Lemma fill_row_spec (i : nat) (cache : Cache) :
  (i < length rides)%nat ->
  rows_filled rides B i cache ->
  exists cache',
    for_each (fun j => fill_cell rides (S i) j) (seqZ 1 B) cache = Some cache' /\
    rows_filled rides B (S i) cache'.
Proof.
  intros Hi Hfilled.
  destruct (for_each_ind (fun j => fill_cell rides (S i) j)
              (fun m c => rows_filled rides B i c /\
                 forall j, 1 <= j <= Z.of_nat m ->
                   cache_get c (S i) j
                   = Some (table_value (rev (take (S i) rides)) j))
              (seqZ 1 B) cache) as (cache' & Hrun & Hrows & Hnew).
  - split; [exact Hfilled | intros j Hj; lia].
  - intros m j c Hm [Hc Hdone]. apply lookup_seqZ in Hm as [-> Hm].
    destruct (fill_cell_spec i (1 + Z.of_nat m) c) as (c' & Hc' & Hsh & Hget & Hother);
      [lia | lia | exact Hc |].
    exists c'. split; [exact Hc'|]. split.
    + destruct Hc as (_ & Hcol & Hold). split; [exact Hsh|]. split.
      * intros i' Hi'. rewrite Hother by lia. now apply Hcol.
      * intros i' j' Hi' Hj'. rewrite Hother by lia. now apply Hold.
    + intros j' Hj'. destruct (decide (j' = 1 + Z.of_nat m)) as [->|Hne].
      * exact Hget.
      * rewrite Hother by lia. apply Hdone. lia.
  - exists cache'. split; [exact Hrun|].
    rewrite length_seqZ in Hnew.
    destruct Hrows as (Hsh & Hcol & Hold). split; [exact Hsh|].
    split; [exact Hcol|].
    intros i' j Hi' Hj. destruct (decide (i' = S i)) as [->|Hne].
    + apply Hnew. lia.
    + apply Hold; lia.
Qed.

Lemma fill_cache_spec :
  0 <= B ->
  exists cache,
    fill_cache rides B (init_cache (length rides) B) = Some cache /\
    rows_filled rides B (length rides) cache.
Proof.
  intros HB. unfold fill_cache.
  destruct (for_each_ind
              (fun i => for_each (fun j => fill_cell rides i j) (seqZ 1 B))
              (fun k c => rows_filled rides B k c)
              (seq 1 (length rides)) (init_cache (length rides) B))
    as (cache & Hrun & Hfilled).
  - split; [apply init_cache_shape|]. split.
    + intros i Hi. apply init_cache_get; lia.
    + intros i j Hi Hj. replace i with 0%nat by lia.
      rewrite take_0. cbn. apply init_cache_get; lia.
  - intros k i c Hk Hc. apply lookup_seq in Hk as [-> Hk].
    now apply fill_row_spec.
  - rewrite length_seq in Hfilled. exists cache. split; assumption.
Qed.

End Fill.

(** ** Totals *)

(** The total cost is the sum of the costs, wrapped to [int]. *)
Lemma sum_fold_cost (l : RideVector) (acc : Z * Q) :
  fst (fold_left sum_step l acc) = int_wrap (int_wrap (fst acc) + exact_cost l)
  \/ l = [] /\ fst (fold_left sum_step l acc) = fst acc.
Proof.
  revert acc. induction l as [|r l IH]; intros acc; [now right|].
  left. cbn [fold_left exact_cost].
  destruct (IH (sum_step acc r)) as [->|[-> ->]]; cbn [sum_step fst exact_cost].
  - rewrite !int_wrap_add. f_equal. lia.
  - rewrite int_wrap_add. f_equal. lia.
Qed.

Lemma total_cost_of_wrap (l : RideVector) :
  total_cost_of l = int_wrap (exact_cost l).
Proof.
  unfold total_cost_of, sum_ride_vector.
  destruct (sum_fold_cost l (0, 0%Q)) as [->|[-> ->]]; reflexivity.
Qed.

Lemma exact_cost_app (l1 l2 : RideVector) :
  exact_cost (l1 ++ l2) = exact_cost l1 + exact_cost l2.
Proof. induction l1 as [|r l1 IH]; cbn [app exact_cost]; lia. Qed.

Lemma exact_cost_rev (l : RideVector) : exact_cost (rev l) = exact_cost l.
Proof.
  induction l as [|r l IH]; [reflexivity|].
  cbn [rev]. rewrite exact_cost_app. cbn [exact_cost]. lia.
Qed.

Lemma exact_cost_nonneg (l : RideVector) :
  Forall valid_ride l -> 0 <= exact_cost l.
Proof.
  induction 1 as [|r l Hr _ IH]; [reflexivity|].
  cbn [exact_cost]. unfold valid_ride in Hr. lia.
Qed.

Lemma sublist_rev (l1 l2 : RideVector) :
  sublist l1 l2 -> sublist (rev l1) (rev l2).
Proof.
  induction 1 as [|x l1 l2 _ IH|x l1 l2 _ IH]; cbn [rev].
  - constructor.
  - apply sublist_app; [exact IH | reflexivity].
  - now apply sublist_inserts_r.
Qed.

Lemma sublist_Forall (P : RideItem -> Prop) (l1 l2 : RideVector) :
  sublist l1 l2 -> Forall P l2 -> Forall P l1.
Proof.
  induction 1 as [|x l1 l2 _ IH|x l1 l2 _ IH]; intros HP.
  - constructor.
  - apply Forall_cons in HP as [Hx HP]. constructor; [exact Hx | now apply IH].
  - apply Forall_cons in HP as [_ HP]. now apply IH.
Qed.

Lemma sublist_rev_Forall (P : RideItem -> Prop) (l rides : RideVector) :
  sublist (rev l) rides -> Forall P rides -> Forall P l.
Proof.
  intros Hsub HP. rewrite <- (rev_involutive l).
  apply Forall_rev. exact (sublist_Forall P _ _ Hsub HP).
Qed.

Lemma exact_cost_sublist (l1 l2 : RideVector) :
  Forall valid_ride l2 -> sublist l1 l2 -> exact_cost l1 <= exact_cost l2.
Proof.
  intros Hvalid Hsub.
  induction Hsub as [|x l1 l2 _ IH|x l1 l2 _ IH]; [reflexivity| |];
    apply Forall_cons in Hvalid as [Hx Hvalid]; specialize (IH Hvalid);
    unfold valid_ride in Hx; cbn [exact_cost]; lia.
Qed.

(** When the costs of the rides add up to at most [INT_MAX], the total
    cost of a selection of them is the sum of its costs. *)
Lemma total_cost_of_exact (rides s : RideVector) :
  Forall valid_ride rides -> exact_cost rides <= INT_MAX ->
  sublist s rides -> total_cost_of s = exact_cost s.
Proof.
  intros Hvalid Hmax Hsub. rewrite total_cost_of_wrap.
  pose proof (exact_cost_sublist s rides Hvalid Hsub).
  pose proof (exact_cost_nonneg s (sublist_Forall _ _ _ Hsub Hvalid)).
  apply int_wrap_small. unfold INT_MAX in Hmax. lia.
Qed.

(** The total time of a vector is the time accumulated from its first ride
    to its last. *)
Lemma total_time_of_snoc (l : RideVector) (r : RideItem) :
  total_time_of (l ++ [r]) = double_add (total_time_of l) (time r).
Proof.
  unfold total_time_of, sum_ride_vector. now rewrite fold_left_app.
Qed.

Lemma accumulated_time_rev (l : RideVector) :
  (accumulated_time (rev l) == total_time_of l)%Q.
Proof.
  induction l as [|r l IH] using rev_ind; [reflexivity|].
  rewrite rev_unit, total_time_of_snoc. cbn [accumulated_time].
  rewrite IH. apply double_add_comm.
Qed.

Lemma accumulated_time_total (l : RideVector) :
  (accumulated_time l == total_time_of (rev l))%Q.
Proof. rewrite <- accumulated_time_rev. now rewrite rev_involutive. Qed.


(** ** The table bounds every feasible selection *)

Lemma table_value_upper_bound (considered s : RideVector) (j : Z) :
  Forall valid_ride considered ->
  sublist s considered -> exact_cost s <= j ->
  (accumulated_time s <= table_value considered j)%Q.
Proof.
  intros Hvalid Hsub. revert j.
  induction Hsub as [|x l1 l2 Hsub IH|x l1 l2 Hsub IH]; intros j Hcost.
  - cbn. lra.
  - apply Forall_cons in Hvalid as [Hx Hvalid].
    cbn [exact_cost] in Hcost. cbn [accumulated_time table_value].
    pose proof (exact_cost_nonneg l1 (sublist_Forall _ _ _ Hsub Hvalid)) as Hnn.
    destruct (Z.geb_spec (j - cost x) 0); [|lia].
    pose proof (double_add_mono_r (time x) _ _
                  (IH Hvalid (j - cost x) ltac:(lia))).
    pose proof (std_max_l (double_add (time x) (table_value l2 (j - cost x)))
                  (table_value l2 j)).
    lra.
  - apply Forall_cons in Hvalid as [Hx Hvalid].
    pose proof (IH Hvalid j Hcost). cbn [table_value].
    destruct (j - cost x >=? 0); [|assumption].
    pose proof (std_max_r (double_add (time x) (table_value l2 (j - cost x)))
                  (table_value l2 j)).
    lra.
Qed.

(** ** Reconstruction *)

Lemma rev_seq_S (i : nat) : rev (seq 1 (S i)) = S i :: rev (seq 1 i).
Proof. rewrite seq_S. apply rev_unit. Qed.

Section Backtrack.

Variable rides : RideVector.
Variable B : Z.
Variable cache : Cache.
Hypothesis rides_valid : Forall valid_ride rides.
Hypothesis cache_filled : rows_filled rides B (length rides) cache.

Lemma backtrack_spec (i : nat) :
  (i <= length rides)%nat ->
  forall (tempcost : Z) (result : RideVector),
    0 <= tempcost <= B ->
    exists tempcost' chosen,
      for_each (backtrack_step rides cache) (rev (seq 1 i)) (tempcost, result)
      = Some (tempcost', result ++ chosen) /\
      sublist (rev chosen) (take i rides) /\
      exact_cost chosen = tempcost - tempcost' /\
      0 <= tempcost' /\
      (accumulated_time chosen == table_value (rev (take i rides)) tempcost)%Q.
Proof.
  induction i as [|i IH]; intros Hi tempcost result Htc.
  - exists tempcost, []. cbn [seq rev for_each]. rewrite app_nil_r, take_0.
    cbn [rev table_value exact_cost accumulated_time].
    repeat split; try reflexivity; try lia.
  - destruct (lookup_lt_is_Some_2 rides i ltac:(lia)) as [item Hitem].
    rewrite rev_seq_S. cbn [for_each]. unfold backtrack_step at 1.
    replace (S i - 1)%nat with i by lia.
    rewrite (rows_filled_get rides B rides_valid _ cache (S i) tempcost
               cache_filled) by lia.
    rewrite (rows_filled_get rides B rides_valid _ cache i tempcost
               cache_filled) by lia.
    rewrite Hitem, (rev_take_S _ _ _ Hitem), (take_S_r _ _ _ Hitem).
    destruct (Qeq_bool _ _) eqn:Eq.
    + apply Qeq_bool_iff in Eq.
      destruct (IH ltac:(lia) tempcost result Htc)
        as (tc' & chosen & Hrun & Hsub & Hcost & Htc' & Htime).
      exists tc', chosen. split; [exact Hrun|].
      split; [now apply sublist_inserts_r|].
      split; [exact Hcost|]. split; [exact Htc'|].
      rewrite Htime. symmetry. exact Eq.
    + apply Qeq_bool_neq in Eq. cbn [table_value] in Eq |- *.
      destruct (Z.geb_spec (tempcost - cost item) 0) as [Hfit|Hnofit];
        [|exfalso; apply Eq; reflexivity].
      assert (std_max (double_add (time item)
                         (table_value (rev (take i rides))
                            (tempcost - cost item)))
                (table_value (rev (take i rides)) tempcost)
              = double_add (time item)
                  (table_value (rev (take i rides)) (tempcost - cost item)))
        as Hmax.
      { unfold std_max in Eq |- *. destruct (Qlt_bool _ _); [|reflexivity].
        exfalso. apply Eq. reflexivity. }
      rewrite Hmax.
      pose proof (proj1 (Forall_lookup _ _) rides_valid i item Hitem) as Hpos.
      unfold valid_ride in Hpos.
      destruct (IH ltac:(lia) (tempcost - cost item) (result ++ [item])
                  ltac:(lia))
        as (tc' & chosen & Hrun & Hsub & Hcost & Htc' & Htime).
      exists tc', (item :: chosen). split.
      { rewrite Hrun. f_equal. f_equal. now rewrite <- app_assoc. }
      split.
      { cbn [rev]. apply sublist_app; [exact Hsub | reflexivity]. }
      split; [cbn [exact_cost]; lia|].
      split; [exact Htc'|].
      cbn [accumulated_time]. now rewrite Htime.
Qed.

End Backtrack.

(** ** The dynamic solver reaches the value of the table *)

Lemma dynamic_max_time_table_value (rides : RideVector) (B : Z) :
  Forall valid_ride rides -> 0 <= B ->
  exists result,
    dynamic_max_time rides B = Some result /\
    sublist (rev result) rides /\
    exact_cost result <= B /\
    (total_time_of (rev result) == table_value (rev rides) B)%Q.
Proof.
  intros Hvalid HB.
  destruct (fill_cache_spec rides B Hvalid HB) as (cache & Hfill & Hfilled).
  destruct (backtrack_spec rides B cache Hvalid Hfilled (length rides)
              ltac:(lia) B [] ltac:(lia))
    as (tc' & chosen & Hrun & Hsub & Hcost & Htc' & Htime).
  exists chosen. unfold dynamic_max_time, backtrack. rewrite Hfill, Hrun.
  rewrite firstn_all in Hsub, Htime.
  rewrite <- accumulated_time_total.
  repeat split; [exact Hsub | lia | exact Htime].
Qed.

Lemma table_value_optimal (rides s : RideVector) (B : Z) :
  Forall valid_ride rides ->
  sublist s rides -> exact_cost s <= B ->
  (total_time_of s <= table_value (rev rides) B)%Q.
Proof.
  intros Hvalid Hsub Hcost.
  rewrite <- (accumulated_time_rev s).
  apply table_value_upper_bound.
  - now apply Forall_rev.
  - now apply sublist_rev.
  - now rewrite exact_cost_rev.
Qed.

(** ** Bit patterns and subsets *)

Lemma land_1_odd (x : Z) : (Z.land x 1 =? 1) = Z.odd x.
Proof.
  change 1 with (Z.ones 1) at 1. rewrite Z.land_ones by lia.
  change (2 ^ 1) with 2. rewrite Zmod_odd.
  destruct (Z.odd x); reflexivity.
Qed.

Lemma pattern_subset_0 (rides : RideVector) : pattern_subset rides 0 = [].
Proof. induction rides as [|r rest IH]; [reflexivity | exact IH]. Qed.

Lemma pow2_S (n : nat) : 2 ^ Z.of_nat (S n) = 2 * 2 ^ Z.of_nat n.
Proof. rewrite Nat2Z.inj_succ, Z.pow_succ_r by lia. reflexivity. Qed.

Lemma pattern_subset_pow2 (rides : RideVector) :
  pattern_subset rides (2 ^ Z.of_nat (length rides)) = [].
Proof.
  induction rides as [|r rest IH]; [reflexivity|].
  cbn [length pattern_subset]. rewrite pow2_S, Z.odd_mul, Z.div2_div.
  cbn [Z.odd andb]. rewrite Z.mul_comm, Z.div_mul by lia. exact IH.
Qed.

Lemma pattern_subset_not_empty (rides : RideVector) (b : Z) :
  0 < b < 2 ^ Z.of_nat (length rides) -> pattern_subset rides b <> [].
Proof.
  revert b. induction rides as [|r rest IH]; intros b Hb.
  - cbn in Hb. lia.
  - cbn [pattern_subset]. destruct (Z.odd b) eqn:Eodd; [discriminate|].
    apply IH. cbn [length] in Hb. rewrite pow2_S in Hb.
    pose proof (Z.div2_odd b) as Hdiv. rewrite Eodd in Hdiv. cbn in Hdiv.
    lia.
Qed.

Lemma pattern_subset_sublist (rides : RideVector) (b : Z) :
  sublist (pattern_subset rides b) rides.
Proof.
  revert b. induction rides as [|r rest IH]; intros b; [constructor|].
  cbn [pattern_subset]. destruct (Z.odd b); constructor; apply IH.
Qed.

Lemma sublist_pattern (rides s : RideVector) :
  sublist s rides ->
  exists b, 0 <= b < 2 ^ Z.of_nat (length rides) /\ pattern_subset rides b = s.
Proof.
  induction 1 as [|x l1 l2 _ (b & Hb & IH)|x l1 l2 _ (b & Hb & IH)].
  - exists 0. split; [cbn; lia | reflexivity].
  - exists (2 * b + 1). cbn [length pattern_subset]. rewrite pow2_S.
    split; [lia|].
    assert (Z.odd (2 * b + 1) = true) as ->
      by (rewrite Z.add_comm, Z.odd_add_mul_2; reflexivity).
    rewrite Z.div2_div.
    replace ((2 * b + 1) / 2) with b
      by (apply (Z.div_unique (2 * b + 1) 2 b 1); lia).
    now rewrite IH.
  - exists (2 * b). cbn [length pattern_subset]. rewrite pow2_S.
    split; [lia|].
    rewrite Z.odd_mul, Z.div2_div, Z.mul_comm, Z.div_mul by lia.
    cbn. exact IH.
Qed.

Lemma candidate_loop_spec (rides : RideVector) (bits : Z) (m k : nat)
    (acc : RideVector) :
  (k + m)%nat = length rides ->
  for_each (candidate_step rides bits) (seq k m) acc
  = Some (acc ++ pattern_subset (drop k rides) (Z.shiftr bits (Z.of_nat k))).
Proof.
  revert k acc. induction m as [|m IH]; intros k acc Hlen.
  - cbn [seq for_each]. rewrite drop_ge by lia. cbn. now rewrite app_nil_r.
  - destruct (lookup_lt_is_Some_2 rides k ltac:(lia)) as [r Hr].
    cbn [seq for_each]. unfold candidate_step at 1.
    rewrite land_1_odd, Hr, (drop_S _ _ _ Hr). cbn [pattern_subset].
    assert (Z.div2 (Z.shiftr bits (Z.of_nat k))
            = Z.shiftr bits (Z.of_nat (S k))) as Hshift.
    { rewrite Z.div2_spec, Z.shiftr_shiftr by lia. f_equal. lia. }
    rewrite Hshift.
    destruct (Z.odd _).
    + rewrite IH by lia. now rewrite <- app_assoc.
    + now rewrite IH by lia.
Qed.

Lemma build_candidate_spec (rides : RideVector) (bits : Z) :
  build_candidate rides (length rides) bits = Some (pattern_subset rides bits).
Proof.
  unfold build_candidate. rewrite candidate_loop_spec by reflexivity.
  now rewrite drop_0, Z.shiftr_0_r.
Qed.

(** ** The loop over the bit patterns *)

Section Exhaustive.

Variable rides : RideVector.
Variable total_cost : Q.

Local Abbreviation visit := (visit_pattern rides total_cost).

Lemma pow2_le_63 : (length rides < 64)%nat -> 2 ^ Z.of_nat (length rides) <= 2 ^ 63.
Proof. intros H. apply Z.pow_le_mono_r; lia. Qed.

Lemma exhaustive_loop_spec (k : nat) :
  forall (fuel : nat) (bits : Z) (best : RideVector) (seen : list Z),
    (length rides < 64)%nat -> 0 <= bits ->
    bits + Z.of_nat k = 2 ^ Z.of_nat (length rides) + 1 ->
    (k < fuel)%nat ->
    exhaustive_loop fuel rides (length rides) total_cost bits best seen
    = Some (fold_left visit (seqZ bits (Z.of_nat k)) best,
            seen ++ seqZ bits (Z.of_nat k)).
Proof.
  induction k as [|k IH]; intros fuel bits best seen Hn Hbits Hk Hfuel;
    (destruct fuel as [|fuel]; [lia|]); cbn [exhaustive_loop].
  - destruct (Z.leb_spec bits (2 ^ Z.of_nat (length rides))); [lia|].
    cbn. now rewrite app_nil_r.
  - destruct (Z.leb_spec bits (2 ^ Z.of_nat (length rides))); [|lia].
    rewrite build_candidate_spec.
    pose proof (pow2_le_63 Hn) as H63.
    assert (size_t_succ bits = bits + 1) as ->.
    { unfold size_t_succ. apply Z.mod_small.
      change (2 ^ 64) with (2 * 2 ^ 63). lia. }
    rewrite (IH fuel (bits + 1)) by lia.
    rewrite (seqZ_cons bits (Z.of_nat (S k))) by lia.
    replace (Z.pred (Z.of_nat (S k))) with (Z.of_nat k) by lia.
    replace (Z.succ bits) with (bits + 1) by lia.
    cbn [fold_left]. now rewrite <- app_assoc.
Qed.

Lemma exhaustive_loop_64 (fuel : nat) :
  forall (bits : Z) (best : RideVector) (seen : list Z),
    0 <= bits < 2 ^ 64 ->
    exhaustive_loop fuel rides 64 total_cost bits best seen = None.
Proof.
  induction fuel as [|fuel IH]; intros bits best seen Hbits; [reflexivity|].
  cbn [exhaustive_loop].
  destruct (Z.leb_spec bits (2 ^ Z.of_nat 64)) as [_|Hgt];
    [|change (2 ^ Z.of_nat 64) with (2 ^ 64) in Hgt; lia].
  destruct (build_candidate rides 64 bits); [|reflexivity].
  apply IH. unfold size_t_succ. apply Z.mod_pos_bound. reflexivity.
Qed.

Lemma exhaustive_run_64 (fuel : nat) :
  (64 <= length rides)%nat -> exhaustive_run fuel rides total_cost = None.
Proof.
  intros Hn. unfold exhaustive_run.
  destruct (Nat.ltb_spec 64 (length rides)).
  - apply exhaustive_loop_64. split; [lia | reflexivity].
  - replace (length rides) with 64%nat by lia.
    apply exhaustive_loop_64. split; [lia | reflexivity].
Qed.

Lemma choose_best_unfold (best candidate : RideVector) :
  choose_best total_cost best candidate
  = if Qle_bool (inject_Z (total_cost_of candidate)) total_cost
    then if vector_empty best
            || Qlt_bool (total_time_of best) (total_time_of candidate)
         then candidate
         else best
    else best.
Proof.
  unfold choose_best, total_cost_of, total_time_of.
  destruct (sum_ride_vector candidate), (sum_ride_vector best). reflexivity.
Qed.

Lemma choose_best_same (l : RideVector) : choose_best total_cost l l = l.
Proof.
  rewrite choose_best_unfold.
  destruct (Qle_bool _ _); [|reflexivity]. now destruct (_ || _).
Qed.

Lemma scan_state_step (m : Z) (best : RideVector) :
  0 <= m < 2 ^ Z.of_nat (length rides) ->
  scan_state rides total_cost m best ->
  scan_state rides total_cost (m + 1) (visit best m).
Proof.
  intros Hm Hstate. unfold visit_pattern.
  destruct (decide (m = 0)) as [->|Hm0].
  { destruct Hstate as [[-> _]|(b0 & Hb0 & _)]; [|lia].
    rewrite pattern_subset_0, choose_best_same.
    left. split; [reflexivity | intros b Hb; lia]. }
  pose proof (pattern_subset_not_empty rides m ltac:(lia)) as Hne.
  rewrite choose_best_unfold.
  destruct (Qle_bool (inject_Z (total_cost_of (pattern_subset rides m)))
              total_cost) eqn:Efit.
  - apply Qle_bool_iff in Efit.
    destruct Hstate as [[-> Hnone]|(b0 & Hb0 & -> & Hfit0 & Hmax & Hfirst)].
    + cbn [vector_empty orb]. right. exists m.
      split; [lia|]. split; [reflexivity|]. split; [exact Efit|]. split.
      * intros b Hb Hfit. destruct (decide (b = m)) as [->|Hbm]; [lra|].
        exfalso. apply (Hnone b); [lia | exact Hfit].
      * intros b Hb Hfit. exfalso. apply (Hnone b); [lia | exact Hfit].
    + pose proof (pattern_subset_not_empty rides b0 ltac:(lia)) as Hne0.
      destruct (pattern_subset rides b0) as [|r0 l0] eqn:Eb0; [congruence|].
      cbn [vector_empty orb].
      destruct (Qlt_bool _ _) eqn:Elt.
      * apply Qlt_bool_iff in Elt. right. exists m.
        split; [lia|]. split; [reflexivity|]. split; [exact Efit|]. split.
        -- intros b Hb Hfit. destruct (decide (b = m)) as [->|Hbm]; [lra|].
           pose proof (Hmax b ltac:(lia) Hfit). lra.
        -- intros b Hb Hfit. pose proof (Hmax b ltac:(lia) Hfit). lra.
      * apply Qlt_bool_false in Elt. right. exists b0.
        split; [lia|]. split; [now rewrite Eb0|]. split; [exact Hfit0|]. split.
        -- intros b Hb Hfit. destruct (decide (b = m)) as [->|Hbm]; [lra|].
           apply Hmax; [lia | exact Hfit].
        -- exact Hfirst.
  - assert (~ within_budget total_cost (pattern_subset rides m)) as Hnofit.
    { intros Hfit. apply Qle_bool_iff in Hfit. unfold within_budget in Hfit.
      congruence. }
    destruct Hstate as [[-> Hnone]|(b0 & Hb0 & -> & Hfit0 & Hmax & Hfirst)].
    + left. split; [reflexivity|]. intros b Hb.
      destruct (decide (b = m)) as [->|Hbm]; [exact Hnofit|].
      apply Hnone. lia.
    + right. exists b0. split; [lia|]. split; [reflexivity|].
      split; [exact Hfit0|]. split; [|exact Hfirst].
      intros b Hb Hfit. destruct (decide (b = m)) as [->|Hbm]; [tauto|].
      apply Hmax; [lia | exact Hfit].
Qed.

Lemma scan_state_patterns (m : nat) :
  Z.of_nat m <= 2 ^ Z.of_nat (length rides) ->
  scan_state rides total_cost (Z.of_nat m)
    (fold_left visit (seqZ 0 (Z.of_nat m)) []).
Proof.
  induction m as [|m IH]; intros Hm.
  - left. split; [reflexivity | intros b Hb; lia].
  - rewrite seqZ_S, fold_left_app. cbn [fold_left].
    replace (Z.of_nat (S m)) with (Z.of_nat m + 1) by lia.
    apply scan_state_step; [lia|]. apply IH. lia.
Qed.

Lemma scan_state_last (best : RideVector) :
  (0 <= total_cost)%Q ->
  scan_state rides total_cost (2 ^ Z.of_nat (length rides)) best ->
  exhaustive_result rides total_cost
    (visit best (2 ^ Z.of_nat (length rides))).
Proof.
  intros Hbudget Hstate. unfold visit_pattern.
  rewrite pattern_subset_pow2.
  destruct Hstate as [[-> Hnone]|(b0 & Hb0 & -> & Hfit0 & Hmax & Hfirst)].
  - rewrite choose_best_same. left. split; [reflexivity|].
    intros b Hb Hfit. exfalso. apply (Hnone b Hb Hfit).
  - rewrite choose_best_unfold.
    change (total_cost_of []) with 0. change (total_time_of []) with 0%Q.
    assert (Qle_bool (inject_Z 0) total_cost = true) as ->
      by (apply Qle_bool_iff; exact Hbudget).
    pose proof (pattern_subset_not_empty rides b0 Hb0) as Hne0.
    destruct (pattern_subset rides b0) as [|r0 l0] eqn:Eb0; [congruence|].
    cbn [vector_empty orb].
    destruct (Qlt_bool _ _) eqn:Elt.
    + apply Qlt_bool_iff in Elt. left. split; [reflexivity|].
      intros b Hb Hfit. pose proof (Hmax b Hb Hfit). lra.
    + apply Qlt_bool_false in Elt. right. exists b0.
      split; [exact Hb0|]. split; [now rewrite Eb0|].
      split; [exact Hfit0|]. split; [exact Elt|].
      split; [exact Hmax | exact Hfirst].
Qed.

Lemma exhaustive_run_fold (fuel : nat) :
  (length rides < 64)%nat ->
  2 ^ Z.of_nat (length rides) + 2 <= Z.of_nat fuel ->
  exhaustive_run fuel rides total_cost
  = Some (fold_left visit (seqZ 0 (2 ^ Z.of_nat (length rides) + 1)) [],
          seqZ 0 (2 ^ Z.of_nat (length rides) + 1)).
Proof.
  intros Hn Hfuel. unfold exhaustive_run.
  destruct (Nat.ltb_spec 64 (length rides)); [lia|].
  pose proof (Z.pow_pos_nonneg 2 (Z.of_nat (length rides)) ltac:(lia) ltac:(lia))
    as Hpos.
  destruct (Z_of_nat_complete (2 ^ Z.of_nat (length rides)) ltac:(lia))
    as [k Hk].
  rewrite (exhaustive_loop_spec (S k)) by lia.
  cbn [app]. replace (Z.of_nat (S k)) with (2 ^ Z.of_nat (length rides) + 1)
    by lia.
  reflexivity.
Qed.

Lemma choose_best_rule (current candidate : RideVector) :
  (within_budget total_cost candidate ->
   current = [] \/ (total_time_of current < total_time_of candidate)%Q ->
   choose_best total_cost current candidate = candidate) /\
  (~ (within_budget total_cost candidate /\
      (current = [] \/ (total_time_of current < total_time_of candidate)%Q)) ->
   choose_best total_cost current candidate = current).
Proof.
  rewrite choose_best_unfold. unfold within_budget.
  destruct (Qle_bool _ _) eqn:Efit.
  - apply Qle_bool_iff in Efit.
    destruct (Qlt_bool _ _) eqn:Elt.
    + apply Qlt_bool_iff in Elt. rewrite orb_true_r.
      split; [reflexivity | tauto].
    + apply Qlt_bool_false in Elt. rewrite orb_false_r.
      destruct current as [|r l]; cbn [vector_empty].
      * split; [reflexivity | tauto].
      * split; [|reflexivity]. intros _ [Hnil|Hlt]; [discriminate | lra].
  - split; [|reflexivity]. intros Hfit. apply Qle_bool_iff in Hfit. congruence.
Qed.

Lemma exhaustive_run_spec (fuel : nat) :
  (length rides < 64)%nat -> (0 <= total_cost)%Q ->
  2 ^ Z.of_nat (length rides) + 2 <= Z.of_nat fuel ->
  exists best,
    exhaustive_run fuel rides total_cost
    = Some (best, seqZ 0 (2 ^ Z.of_nat (length rides) + 1)) /\
    exhaustive_result rides total_cost best.
Proof.
  intros Hn Hbudget Hfuel. unfold exhaustive_run.
  destruct (Nat.ltb_spec 64 (length rides)); [lia|].
  pose proof (Z.pow_pos_nonneg 2 (Z.of_nat (length rides)) ltac:(lia) ltac:(lia))
    as Hpos.
  destruct (Z_of_nat_complete (2 ^ Z.of_nat (length rides)) ltac:(lia))
    as [k Hk].
  rewrite (exhaustive_loop_spec (S k)) by lia.
  eexists. split.
  - cbn [app]. f_equal. f_equal. f_equal. lia.
  - rewrite seqZ_S, fold_left_app. cbn [fold_left]. rewrite Z.add_0_l.
    pose proof (scan_state_patterns k) as Hscan.
    rewrite <- Hk in Hscan |- *.
    apply scan_state_last; [exact Hbudget|]. apply Hscan. lia.
Qed.

Lemma exhaustive_result_optimal (best : RideVector) :
  (0 <= total_cost)%Q ->
  exhaustive_result rides total_cost best ->
  within_budget total_cost best /\
  (exists b, 0 <= b < 2 ^ Z.of_nat (length rides) /\
             best = pattern_subset rides b) /\
  (forall b, 0 <= b < 2 ^ Z.of_nat (length rides) ->
     within_budget total_cost (pattern_subset rides b) ->
     (total_time_of (pattern_subset rides b) <= total_time_of best)%Q).
Proof.
  intros Hbudget [[-> Hneg]|(b0 & Hb0 & -> & Hfit0 & Hnn & Hmax & _)].
  - split; [exact Hbudget|]. split.
    + exists 0. rewrite pattern_subset_0. split; [|reflexivity].
      pose proof (Z.pow_pos_nonneg 2 (Z.of_nat (length rides))). lia.
    + intros b Hb Hfit. change (total_time_of []) with 0%Q.
      destruct (decide (b = 0)) as [->|Hb0].
      * rewrite pattern_subset_0. change (total_time_of []) with 0%Q. lra.
      * pose proof (Hneg b ltac:(lia) Hfit). lra.
  - split; [exact Hfit0|]. split.
    + exists b0. split; [lia | reflexivity].
    + intros b Hb Hfit. destruct (decide (b = 0)) as [->|Hbne].
      * rewrite pattern_subset_0. change (total_time_of []) with 0%Q.
        exact Hnn.
      * apply Hmax; [lia | exact Hfit].
Qed.

End Exhaustive.

(** ** The worked example of the documentation *)

Example dynamic_max_time_example :
  dynamic_max_time [ride_A; ride_B; ride_C; ride_D] 5 = Some [ride_B; ride_A].
Proof. vm_compute. reflexivity. Qed.

Example dynamic_max_time_no_budget :
  dynamic_max_time [ride_A; ride_B; ride_C; ride_D] 0 = Some [].
Proof. vm_compute. reflexivity. Qed.

Example exhaustive_max_time_example :
  exhaustive_max_time 18 [ride_A; ride_B; ride_C; ride_D] 5
  = Some [ride_A; ride_B].
Proof. vm_compute. reflexivity. Qed.

Example filter_ride_vector_example :
  filter_ride_vector
    [mkRideItem "a" 1 (-1); ride_idle; mkRideItem "c" 1 5;
     mkRideItem "d" 1 10; mkRideItem "e" 1 20] 0 1000 2
  = [mkRideItem "c" 1 5; mkRideItem "d" 1 10].
Proof. vm_compute. reflexivity. Qed.

(** ** The filter: results *)

(** C10: every ride returned by [filter_ride_vector] has strictly positive
    time, whatever the source, the range and the size bound are; a ride
    with time [<= 0] is left out even when the range contains its time. *)
Theorem filter_ride_vector_positive_time (source : RideVector)
    (min_time max_time : Q) (total_size : Z) :
  Forall (fun r => (0 < time r)%Q)
    (filter_ride_vector source min_time max_time total_size).
Proof.
  apply filter_loop_keeps; [|constructor].
  intros r Hr. now apply filter_test_spec in Hr.
Qed.

(** C9: filtering the output of [filter_ride_vector] again with the same
    range and a size bound [k'] that is at least the first bound [k] gives
    that output back. *)
Theorem filter_ride_vector_idempotent (source : RideVector)
    (min_time max_time : Q) (k k' : Z) :
  k <= k' ->
  filter_ride_vector (filter_ride_vector source min_time max_time k)
    min_time max_time k'
  = filter_ride_vector source min_time max_time k.
Proof.
  intros Hk. unfold filter_ride_vector.
  rewrite filter_loop_all.
  - cbn [app length]. apply take_ge.
    pose proof (filter_loop_length min_time max_time k source []) as Hlen.
    cbn [length] in Hlen. lia.
  - apply filter_loop_keeps; [tauto | constructor].
Qed.

Lemma filter_ride_vector_idempotent_witness :
  2 <= 3 /\
  filter_ride_vector
    (filter_ride_vector [ride_A; ride_B; ride_C; ride_D] 4 10 2) 4 10 3
  = filter_ride_vector [ride_A; ride_B; ride_C; ride_D] 4 10 2.
Proof.
  split; [lia|].
  apply (filter_ride_vector_idempotent [ride_A; ride_B; ride_C; ride_D] 4 10 2 3).
  lia.
Defined.

(** C5, the claim as stated fails: a ride whose time is 0 lies in the range
    [-1, 1], the size bound 5 is not reached, and the ride is not in the
    output. *)
Lemma filter_ride_vector_drops_zero_time :
  In ride_idle [ride_idle] /\
  (-1 <= time ride_idle)%Q /\ (time ride_idle <= 1)%Q /\
  ~ In ride_idle (filter_ride_vector [ride_idle] (-1) 1 5).
Proof.
  repeat split; try (now left); try (cbn; lra).
  intros H. vm_compute in H. exact H.
Qed.

(** C5 amended: for a size bound of at least 1, [filter_ride_vector]
    returns, in source order, the first [total_size] rides of the source
    whose time lies in [[min_time, max_time]] and is strictly positive. *)
Theorem filter_ride_vector_first_matches (source : RideVector)
    (min_time max_time : Q) (total_size : Z) :
  1 <= total_size ->
  filter_ride_vector source min_time max_time total_size
  = take (Z.to_nat total_size)
      (List.filter (filter_test min_time max_time) source)
  /\ (forall r, filter_test min_time max_time r = true <->
                (min_time <= time r /\ time r <= max_time /\ 0 < time r)%Q).
Proof.
  intros Hsize. split.
  - unfold filter_ride_vector. rewrite filter_loop_take; [reflexivity|].
    cbn. lia.
  - intros r. apply filter_test_spec.
Qed.

Lemma filter_ride_vector_first_matches_witness :
  1 <= 2 /\
  (filter_ride_vector [ride_A; ride_B; ride_C; ride_D] 4 10 2
   = take (Z.to_nat 2)
       (List.filter (filter_test 4 10) [ride_A; ride_B; ride_C; ride_D])
   /\ (forall r, filter_test 4 10 r = true <->
                 (4 <= time r /\ time r <= 10 /\ 0 < time r)%Q)).
Proof.
  split; [lia|].
  apply (filter_ride_vector_first_matches [ride_A; ride_B; ride_C; ride_D] 4 10 2).
  lia.
Defined.

(** The second half of C6 holds: an empty range gives an empty output. *)
Lemma filter_ride_vector_empty_range (source : RideVector)
    (min_time max_time : Q) (total_size : Z) :
  (max_time < min_time)%Q ->
  filter_ride_vector source min_time max_time total_size = [].
Proof.
  intros Hrange.
  pose proof (filter_loop_keeps min_time max_time total_size (fun _ => False)
                source []) as H.
  destruct (filter_ride_vector source min_time max_time total_size)
    as [|r l] eqn:E; [reflexivity|].
  exfalso. unfold filter_ride_vector in E. rewrite E in H.
  assert (Forall (fun _ : RideItem => False) (r :: l)) as HF.
  { apply H; [|constructor]. intros r0 Hr0.
    apply filter_test_spec in Hr0. lra. }
  now apply Forall_cons in HF.
Qed.

(** C6, the first half fails on the code: with [total_size = 0] the size is
    tested after the first [push_back], so a source whose first ride
    matches gives an output of one ride. *)
Theorem filter_ride_vector_size_zero_not_empty :
  filter_ride_vector [ride_A; ride_B] 0 10 0 = [ride_A].
Proof. reflexivity. Qed.

(** ** The dynamic solver *)

(** C1, the claim as stated fails: on six rides of costs 2, 2, 2, 2, 2, 9
    and the budget 10, [dynamic_max_time] returns the five rides of cost 2,
    whose time is 1 as [sum_ride_vector] adds it up and [1 + 12 * 2^-55] as
    an exact sum, while the ride of cost 9 alone is within the budget and
    has the time [1 + 2^-51], which is more in both readings. *)
Lemma dynamic_max_time_not_maximal :
  dynamic_max_time six_rides 10
  = Some [ride_one; ride_t4; ride_t3; ride_t2; ride_t1] /\
  sublist [ride_x] six_rides /\
  total_cost_of [ride_x] <= 10 /\
  (total_time_of [ride_one; ride_t4; ride_t3; ride_t2; ride_t1]
   < total_time_of [ride_x])%Q /\
  (exact_time [ride_one; ride_t4; ride_t3; ride_t2; ride_t1]
   < exact_time [ride_x])%Q.
Proof.
  split; [vm_compute; reflexivity|].
  split; [do 5 apply sublist_cons; apply sublist_skip, sublist_nil_l|].
  split; [vm_compute; discriminate|].
  split; vm_compute; reflexivity.
Qed.

(** C1 amended: for rides of strictly positive cost and a budget
    [0 <= B < INT_MAX], [dynamic_max_time] returns a selection of distinct
    rides of the input (in reverse input order) whose total cost is at most
    [B] and whose total time, added up in [double] in the input order of the
    rides, is greatest among the total times, added up in the same way, of
    all the sub-sequences of the input with total cost at most [B]. *)
Theorem dynamic_max_time_optimal (rides : RideVector) (B : Z) :
  Forall valid_ride rides -> 0 <= B -> B < INT_MAX ->
  exists result,
    dynamic_max_time rides B = Some result /\
    sublist (rev result) rides /\
    exact_cost result <= B /\
    total_cost_of result <= B /\
    (forall s, sublist s rides -> exact_cost s <= B ->
       (total_time_of s <= total_time_of (rev result))%Q).
Proof.
  intros Hvalid HB HBmax.
  destruct (dynamic_max_time_table_value rides B Hvalid HB)
    as (result & Hrun & Hsub & Hcost & Htime).
  exists result. split; [exact Hrun|]. split; [exact Hsub|].
  split; [exact Hcost|]. split.
  - rewrite total_cost_of_wrap, int_wrap_small; [exact Hcost|].
    pose proof (exact_cost_nonneg result
                  (sublist_rev_Forall _ _ _ Hsub Hvalid)).
    unfold INT_MAX in HBmax. lia.
  - intros s Hs Hscost. rewrite Htime. now apply table_value_optimal.
Qed.

Lemma dynamic_max_time_optimal_witness :
  Forall valid_ride six_rides /\ 0 <= 10 /\ 10 < INT_MAX /\
  exists result,
    dynamic_max_time six_rides 10 = Some result /\
    sublist (rev result) six_rides /\
    exact_cost result <= 10 /\
    total_cost_of result <= 10 /\
    (forall s, sublist s six_rides -> exact_cost s <= 10 ->
       (total_time_of s <= total_time_of (rev result))%Q).
Proof.
  assert (Forall valid_ride six_rides) as Hvalid by (repeat constructor).
  assert (10 < INT_MAX) as Hmax by reflexivity.
  split; [exact Hvalid|]. split; [lia|]. split; [exact Hmax|].
  apply (dynamic_max_time_optimal six_rides 10 Hvalid); [lia | exact Hmax].
Defined.

(** C8, the claim as stated fails: on the six rides the budget 9 gives the
    ride of cost 9, of time [1 + 2^-51], and the budget 10 gives the five
    rides of cost 2, whose time is less, both as [sum_ride_vector] adds it
    up and as an exact sum. *)
Lemma dynamic_max_time_not_monotone :
  9 <= 10 /\
  dynamic_max_time six_rides 9 = Some [ride_x] /\
  dynamic_max_time six_rides 10
  = Some [ride_one; ride_t4; ride_t3; ride_t2; ride_t1] /\
  (total_time_of [ride_one; ride_t4; ride_t3; ride_t2; ride_t1]
   < total_time_of [ride_x])%Q /\
  (exact_time [ride_one; ride_t4; ride_t3; ride_t2; ride_t1]
   < exact_time [ride_x])%Q.
Proof.
  split; [lia|]. split; [vm_compute; reflexivity|].
  split; [vm_compute; reflexivity|].
  split; vm_compute; reflexivity.
Qed.

(** C8 amended: for rides of strictly positive cost and budgets
    [0 <= B1 <= B2 < INT_MAX], the total time of the selection returned for
    [B2] is at least the total time of the selection returned for [B1],
    when the time of each selection is added up in [double] in the input
    order of the rides. *)
Theorem dynamic_max_time_monotone (rides : RideVector) (B1 B2 : Z) :
  Forall valid_ride rides -> 0 <= B1 -> B1 <= B2 -> B2 < INT_MAX ->
  exists r1 r2,
    dynamic_max_time rides B1 = Some r1 /\
    dynamic_max_time rides B2 = Some r2 /\
    (total_time_of (rev r1) <= total_time_of (rev r2))%Q.
Proof.
  intros Hvalid H1 H12 _.
  destruct (dynamic_max_time_table_value rides B1 Hvalid H1)
    as (r1 & Hrun1 & _ & _ & Htime1).
  destruct (dynamic_max_time_table_value rides B2 Hvalid ltac:(lia))
    as (r2 & Hrun2 & _ & _ & Htime2).
  exists r1, r2. split; [exact Hrun1|]. split; [exact Hrun2|].
  rewrite Htime1, Htime2. now apply table_value_mono.
Qed.

Lemma dynamic_max_time_monotone_witness :
  Forall valid_ride six_rides /\ 0 <= 9 /\ 9 <= 10 /\ 10 < INT_MAX /\
  exists r1 r2,
    dynamic_max_time six_rides 9 = Some r1 /\
    dynamic_max_time six_rides 10 = Some r2 /\
    (total_time_of (rev r1) <= total_time_of (rev r2))%Q.
Proof.
  assert (Forall valid_ride six_rides) as Hvalid by (repeat constructor).
  assert (10 < INT_MAX) as Hmax by reflexivity.
  split; [exact Hvalid|]. split; [lia|]. split; [lia|]. split; [exact Hmax|].
  apply (dynamic_max_time_monotone six_rides 9 10 Hvalid); [lia | lia | exact Hmax].
Defined.

(** ** The exhaustive solver *)


(** The test of line 360 is on the sum of the costs when the costs of the
    rides add up to at most [INT_MAX]. *)
Lemma within_budget_exact (rides s : RideVector) (total_cost : Q) :
  Forall valid_ride rides -> exact_cost rides <= INT_MAX ->
  sublist s rides ->
  (within_budget total_cost s <-> (inject_Z (exact_cost s) <= total_cost)%Q).
Proof.
  intros Hvalid Hmax Hsub. unfold within_budget.
  now rewrite (total_cost_of_exact rides s Hvalid Hmax Hsub).
Qed.



(** C4, the claim fails on the code: the guard [bits <= pow(2, n)] lets
    the body run for the [2^N + 1] patterns [0 .. 2^N]; the last pattern,
    [2^N], selects no ride and so repeats the empty subset of pattern 0. *)
Theorem exhaustive_loop_runs_pattern_2N (rides : RideVector)
    (total_cost : Q) (fuel : nat) :
  (length rides < 64)%nat ->
  2 ^ Z.of_nat (length rides) + 2 <= Z.of_nat fuel ->
  (snd <$> exhaustive_run fuel rides total_cost
   = Some (seqZ 0 (2 ^ Z.of_nat (length rides) + 1))) /\
  Z.of_nat (length (seqZ 0 (2 ^ Z.of_nat (length rides) + 1)))
  = 2 ^ Z.of_nat (length rides) + 1 /\
  build_candidate rides (length rides) (2 ^ Z.of_nat (length rides)) = Some [] /\
  build_candidate rides (length rides) 0 = Some [].
Proof.
  intros Hn Hfuel.
  rewrite (exhaustive_run_fold rides total_cost fuel Hn Hfuel).
  split; [reflexivity|]. split.
  - rewrite length_seqZ.
    pose proof (Z.pow_pos_nonneg 2 (Z.of_nat (length rides))). lia.
  - rewrite !build_candidate_spec, pattern_subset_pow2, pattern_subset_0.
    split; reflexivity.
Qed.

Lemma exhaustive_loop_runs_pattern_2N_witness :
  (length [ride_A] < 64)%nat /\
  2 ^ Z.of_nat (length [ride_A]) + 2 <= Z.of_nat 4 /\
  (snd <$> exhaustive_run 4 [ride_A] 5
   = Some (seqZ 0 (2 ^ Z.of_nat (length [ride_A]) + 1))) /\
  Z.of_nat (length (seqZ 0 (2 ^ Z.of_nat (length [ride_A]) + 1)))
  = 2 ^ Z.of_nat (length [ride_A]) + 1 /\
  build_candidate [ride_A] (length [ride_A]) (2 ^ Z.of_nat (length [ride_A]))
  = Some [] /\
  build_candidate [ride_A] (length [ride_A]) 0 = Some [].
Proof.
  assert ((length [ride_A] < 64)%nat) as Hn by (cbn; lia).
  assert (2 ^ Z.of_nat (length [ride_A]) + 2 <= Z.of_nat 4) as Hfuel
    by (cbn; lia).
  split; [exact Hn|]. split; [exact Hfuel|].
  exact (exhaustive_loop_runs_pattern_2N [ride_A] 5 4 Hn Hfuel).
Defined.

(** C2, the claim as stated fails: on the six rides and the budget 10 the
    two solvers return the same five rides in opposite orders, and
    [sum_ride_vector] gives the time 1 for the one vector and [1 + 2^-51]
    for the other; on a ride of time [2^-60] followed by a ride of time 1,
    both of cost 1, and the budget 2, the dynamic solver returns both rides
    and the exhaustive solver the second alone, and their exact times
    differ. *)
Lemma dynamic_exhaustive_times_differ :
  (length six_rides <= 16)%nat /\
  dynamic_max_time six_rides 10
  = Some [ride_one; ride_t4; ride_t3; ride_t2; ride_t1] /\
  exhaustive_max_time 70 six_rides 10
  = Some [ride_t1; ride_t2; ride_t3; ride_t4; ride_one] /\
  ~ (total_time_of [ride_one; ride_t4; ride_t3; ride_t2; ride_t1]
     == total_time_of [ride_t1; ride_t2; ride_t3; ride_t4; ride_one])%Q /\
  dynamic_max_time [ride_tiny; ride_big] 2 = Some [ride_big; ride_tiny] /\
  exhaustive_max_time 6 [ride_tiny; ride_big] 2 = Some [ride_big] /\
  ~ (exact_time [ride_big; ride_tiny] == exact_time [ride_big])%Q.
Proof.
  split; [cbn; lia|]. split; [vm_compute; reflexivity|].
  split; [vm_compute; reflexivity|].
  split; [intros H; vm_compute in H; discriminate|].
  split; [vm_compute; reflexivity|]. split; [vm_compute; reflexivity|].
  intros H. vm_compute in H. discriminate.
Qed.

(** C2 amended: for at most 16 rides, of strictly positive costs that add
    up to at most [INT_MAX] and of times that are not negative, and a
    budget [0 <= B < INT_MAX], the selection of [dynamic_max_time] and the
    selection of [exhaustive_max_time] have equal total time, when the time
    of each is added up in [double] in the input order of the rides (the
    vector of the dynamic solver is in reverse order). *)
Theorem dynamic_exhaustive_equal_time (rides : RideVector) (B : Z)
    (fuel : nat) :
  Forall valid_ride rides -> exact_cost rides <= INT_MAX ->
  Forall (fun r => (0 <= time r)%Q) rides ->
  0 <= B -> B < INT_MAX -> (length rides <= 16)%nat ->
  2 ^ Z.of_nat (length rides) + 2 <= Z.of_nat fuel ->
  exists d e,
    dynamic_max_time rides B = Some d /\
    exhaustive_max_time fuel rides (inject_Z B) = Some e /\
    (total_time_of (rev d) == total_time_of e)%Q.
Proof.
  intros Hvalid Hmax _ HB _ Hn Hfuel.
  assert ((0 <= inject_Z B)%Q) as HBq by (unfold Qle; cbn; lia).
  destruct (dynamic_max_time_table_value rides B Hvalid HB)
    as (d & Hd & Hdsub & Hdcost & Hdtime).
  destruct (exhaustive_run_spec rides (inject_Z B) fuel ltac:(lia) HBq Hfuel)
    as (e & Hrun & Hres).
  destruct (exhaustive_result_optimal rides (inject_Z B) e HBq Hres)
    as (Hefit & (b & Hb & He) & Hbound).
  exists d, e. split; [exact Hd|].
  split; [unfold exhaustive_max_time; now rewrite Hrun|].
  apply Qle_antisym.
  - destruct (sublist_pattern rides (rev d) Hdsub) as (bd & Hbd & Hpat).
    rewrite <- Hpat. apply Hbound; [exact Hbd|].
    apply (within_budget_exact rides); try assumption.
    + apply pattern_subset_sublist.
    + rewrite Hpat, exact_cost_rev. unfold Qle. cbn. lia.
  - rewrite Hdtime. apply table_value_optimal; [exact Hvalid | |].
    + rewrite He. apply pattern_subset_sublist.
    + apply (within_budget_exact rides) in Hefit; try assumption.
      * unfold Qle in Hefit. cbn in Hefit. lia.
      * rewrite He. apply pattern_subset_sublist.
Qed.

Lemma dynamic_exhaustive_equal_time_witness :
  Forall valid_ride six_rides /\ exact_cost six_rides <= INT_MAX /\
  Forall (fun r => (0 <= time r)%Q) six_rides /\
  0 <= 10 /\ 10 < INT_MAX /\ (length six_rides <= 16)%nat /\
  2 ^ Z.of_nat (length six_rides) + 2 <= Z.of_nat 70 /\
  exists d e,
    dynamic_max_time six_rides 10 = Some d /\
    exhaustive_max_time 70 six_rides (inject_Z 10) = Some e /\
    (total_time_of (rev d) == total_time_of e)%Q.
Proof.
  assert (Forall valid_ride six_rides) as Hvalid by (repeat constructor).
  assert (exact_cost six_rides <= INT_MAX) as Hmax
    by (vm_compute; discriminate).
  assert (Forall (fun r => (0 <= time r)%Q) six_rides) as Htimes
    by (repeat constructor; vm_compute; discriminate).
  assert (10 < INT_MAX) as HBmax by reflexivity.
  assert ((length six_rides <= 16)%nat) as Hn by (cbn; lia).
  assert (2 ^ Z.of_nat (length six_rides) + 2 <= Z.of_nat 70) as Hfuel
    by (cbn; lia).
  split; [exact Hvalid|]. split; [exact Hmax|]. split; [exact Htimes|].
  split; [lia|]. split; [exact HBmax|]. split; [exact Hn|].
  split; [exact Hfuel|].
  apply (dynamic_exhaustive_equal_time six_rides 10 70 Hvalid Hmax Htimes);
    [lia | exact HBmax | exact Hn | exact Hfuel].
Defined.

(** ** The loader *)

Lemma parse_dbl_always_true (extract_double : string -> option Q)
    (field : string) (output : Q) :
  fst (parse_dbl extract_double field output) = true.
Proof. reflexivity. Qed.

(** The first half of C7 holds: a record that does not split into three
    fields makes the load return the failure value. *)
Lemma load_lines_wrong_field_count (extract_double : string -> option Q)
    (indeterminate : Q) (line : string) (rest : list string)
    (line_number : Z) (result : RideVector) :
  1 <= line_number ->
  length (split_fields line EmptyString) <> 3%nat ->
  load_lines extract_double indeterminate (line :: rest) line_number result
  = LoadFailure.
Proof.
  intros Hnum Hcount. cbn [load_lines].
  destruct (Z.eqb_spec (line_number + 1) 1); [lia|].
  destruct (split_fields line EmptyString) as [|f1 [|f2 [|f3 [|f4 l]]]];
    try reflexivity.
  now cbn in Hcount.
Qed.

Lemma double_to_size_t_pos (c : Q) :
  0 < double_to_int c -> 0 < double_to_size_t c.
Proof.
  unfold double_to_int. intros Hpos.
  assert (0 <= double_to_size_t c) as Hnn
    by (unfold double_to_size_t; apply Z.mod_pos_bound; lia).
  destruct (Z.eq_dec (double_to_size_t c) 0) as [E|]; [|lia].
  rewrite E in Hpos. vm_compute in Hpos. discriminate.
Qed.

(** C7, the second half fails on the code: [parse_dbl] tests the stream
    before the extraction, so it reports success for every field.  A record
    of three fields whose time field does not parse as a number is added to
    the result, with time 0, and is not skipped. *)
Theorem load_ride_database_keeps_unparsed_time
    (extract_double : string -> option Q) (indeterminate : Q)
    (header line descr cost_field time_field : string) (c : Q) :
  split_fields line EmptyString = [descr; cost_field; time_field] ->
  descr <> EmptyString ->
  extract_double cost_field = Some c ->
  0 < double_to_int c ->
  extract_double time_field = None ->
  load_ride_database extract_double indeterminate (Some [header; line])
  = Loaded [mkRideItem descr (double_to_int c) 0].
Proof.
  intros Hsplit Hdescr Hcost Hpos Htime.
  unfold load_ride_database. cbn [load_lines Z.add Z.eqb Pos.add Pos.eqb Pos.succ].
  rewrite Hsplit. unfold parse_dbl. rewrite Hcost, Htime.
  cbn [andb]. unfold new_RideItem.
  apply String.eqb_neq in Hdescr. rewrite Hdescr.
  apply double_to_size_t_pos, Z.ltb_lt in Hpos. rewrite Hpos. reflexivity.
Qed.

Lemma load_ride_database_keeps_unparsed_time_witness :
  split_fields "castle^10^abc" EmptyString = ["castle"; "10"; "abc"]%string /\
  "castle"%string <> EmptyString /\
  read_unsigned "10" = Some (inject_Z 10) /\
  0 < double_to_int (inject_Z 10) /\
  read_unsigned "abc" = None /\
  load_ride_database read_unsigned 0
    (Some ["description^cost^time"; "castle^10^abc"]%string)
  = Loaded [mkRideItem "castle" (double_to_int (inject_Z 10)) 0].
Proof.
  assert (split_fields "castle^10^abc" EmptyString
          = ["castle"; "10"; "abc"]%string) as Hsplit by reflexivity.
  assert ("castle"%string <> EmptyString) as Hdescr by discriminate.
  assert (read_unsigned "10" = Some (inject_Z 10)) as Hcost by reflexivity.
  assert (0 < double_to_int (inject_Z 10)) as Hpos by reflexivity.
  assert (read_unsigned "abc" = None) as Htime by reflexivity.
  split; [exact Hsplit|]. split; [exact Hdescr|]. split; [exact Hcost|].
  split; [exact Hpos|]. split; [exact Htime|].
  exact (load_ride_database_keeps_unparsed_time read_unsigned 0
           "description^cost^time" "castle^10^abc" "castle" "10" "abc"
           (inject_Z 10) Hsplit Hdescr Hcost Hpos Htime).
Defined.

(** * Further properties *)

(** ** The totals *)

Lemma exact_cost_permutation (l1 l2 : RideVector) :
  Permutation l1 l2 -> exact_cost l1 = exact_cost l2.
Proof.
  induction 1 as [|x l l' _ IH|x y l|l l' l'' _ IH1 _ IH2];
    cbn [exact_cost]; lia.
Qed.

(** X1: the total cost is the sum of the costs reduced to the 32 bits of
    an [int]; so the total cost of two vectors put one after the other is
    the sum of their total costs reduced in the same way.  The total time
    of a vector with one more ride at its end is the [double] sum of the
    total time of the vector and of the time of the ride. *)
Theorem sum_ride_vector_app (l1 l2 : RideVector) (r : RideItem) :
  fst (sum_ride_vector l1) = int_wrap (exact_cost l1) /\
  fst (sum_ride_vector (l1 ++ l2))
  = int_wrap (fst (sum_ride_vector l1) + fst (sum_ride_vector l2)) /\
  snd (sum_ride_vector (l1 ++ [r]))
  = double_add (snd (sum_ride_vector l1)) (time r).
Proof.
  change (total_cost_of l1 = int_wrap (exact_cost l1) /\
          total_cost_of (l1 ++ l2)
          = int_wrap (total_cost_of l1 + total_cost_of l2) /\
          total_time_of (l1 ++ [r]) = double_add (total_time_of l1) (time r)).
  split; [apply total_cost_of_wrap|]. split; [|apply total_time_of_snoc].
  rewrite !total_cost_of_wrap, exact_cost_app, int_wrap_add.
  rewrite (Z.add_comm (exact_cost l1) (int_wrap (exact_cost l2))), int_wrap_add.
  f_equal. lia.
Qed.

(** X2: the total cost does not depend on the order of the rides. *)
Theorem sum_ride_vector_permutation (l1 l2 : RideVector) :
  Permutation l1 l2 ->
  fst (sum_ride_vector l1) = fst (sum_ride_vector l2).
Proof.
  intros Hperm. change (total_cost_of l1 = total_cost_of l2).
  now rewrite !total_cost_of_wrap, (exact_cost_permutation l1 l2 Hperm).
Qed.

Lemma sum_ride_vector_permutation_witness :
  Permutation [ride_A; ride_B] [ride_B; ride_A] /\
  fst (sum_ride_vector [ride_A; ride_B]) = fst (sum_ride_vector [ride_B; ride_A]).
Proof.
  assert (Permutation [ride_A; ride_B] [ride_B; ride_A]) as Hperm
    by apply perm_swap.
  split; [exact Hperm|].
  exact (sum_ride_vector_permutation [ride_A; ride_B] [ride_B; ride_A] Hperm).
Defined.

(** ** The filter, further *)

Lemma filter_loop_sublist (min_time max_time : Q) (total_size : Z)
    (source acc : RideVector) :
  exists chosen,
    filter_loop source min_time max_time total_size acc = acc ++ chosen /\
    sublist chosen source.
Proof.
  revert acc. induction source as [|element rest IH]; intros acc.
  - exists []. split; [now rewrite app_nil_r | constructor].
  - cbn [filter_loop].
    destruct (filter_test min_time max_time element).
    + destruct (_ >=? _).
      * exists [element]. split; [reflexivity|].
        apply sublist_skip, sublist_nil_l.
      * destruct (IH (acc ++ [element])) as (chosen & Heq & Hsub).
        exists (element :: chosen). rewrite Heq, <- app_assoc.
        split; [reflexivity | now apply sublist_skip].
    + destruct (_ >=? _).
      * exists []. split; [now rewrite app_nil_r | apply sublist_nil_l].
      * destruct (IH acc) as (chosen & Heq & Hsub).
        exists chosen. split; [exact Heq | now apply sublist_cons].
Qed.

(** X3: the output of [filter_ride_vector] is a sub-sequence of the source:
    it holds rides of the source only, each at most as often as the source
    does, in source order. *)
Theorem filter_ride_vector_sublist (source : RideVector)
    (min_time max_time : Q) (total_size : Z) :
  sublist (filter_ride_vector source min_time max_time total_size) source.
Proof.
  destruct (filter_loop_sublist min_time max_time total_size source [])
    as (chosen & Heq & Hsub).
  unfold filter_ride_vector. now rewrite Heq.
Qed.

(** X4: the output of [filter_ride_vector] never has more than
    [total_size] rides, or more than one ride when [total_size] is below 1. *)
Theorem filter_ride_vector_length (source : RideVector)
    (min_time max_time : Q) (total_size : Z) :
  Z.of_nat (length (filter_ride_vector source min_time max_time total_size))
  <= Z.max 1 total_size.
Proof.
  pose proof (filter_loop_length min_time max_time total_size source []) as H.
  cbn [length] in H. exact H.
Qed.

(** X5: with a size bound of 0 or less the loop ends after the first ride of
    the source: the output is that ride alone when it passes the test, and
    is empty otherwise. *)
Theorem filter_ride_vector_size_below_1 (source : RideVector)
    (min_time max_time : Q) (total_size : Z) :
  total_size <= 0 ->
  filter_ride_vector source min_time max_time total_size
  = match source with
    | [] => []
    | element :: _ =>
        if filter_test min_time max_time element then [element] else []
    end.
Proof.
  intros Hsize. unfold filter_ride_vector.
  destruct source as [|element rest]; [reflexivity|].
  cbn [filter_loop app].
  destruct (filter_test min_time max_time element); cbn [length];
    match goal with
    | |- context [?a >=? total_size] =>
        destruct (Z.geb_spec a total_size); [reflexivity | lia]
    end.
Qed.

Lemma filter_ride_vector_size_below_1_witness :
  -3 <= 0 /\
  filter_ride_vector [ride_idle; ride_A] 0 10 (-3)
  = match [ride_idle; ride_A] with
    | [] => []
    | element :: _ => if filter_test 0 10 element then [element] else []
    end.
Proof.
  split; [lia|].
  apply (filter_ride_vector_size_below_1 [ride_idle; ride_A] 0 10 (-3)). lia.
Defined.

(** X6: when [min_time] is greater than [max_time] the output of
    [filter_ride_vector] is empty, for every source and every size bound. *)
Theorem filter_ride_vector_inverted_range (source : RideVector)
    (min_time max_time : Q) (total_size : Z) :
  (max_time < min_time)%Q ->
  filter_ride_vector source min_time max_time total_size = [].
Proof. apply filter_ride_vector_empty_range. Qed.

Lemma filter_ride_vector_inverted_range_witness :
  (4 < 10)%Q /\
  filter_ride_vector [ride_A; ride_B; ride_C; ride_D] 10 4 3 = [].
Proof.
  assert ((4 < 10)%Q) as Hrange by reflexivity.
  split; [exact Hrange|].
  exact (filter_ride_vector_inverted_range [ride_A; ride_B; ride_C; ride_D]
           10 4 3 Hrange).
Defined.

(** X7: for size bounds [1 <= k <= k'], the output for [k] is the start of
    the output for [k']: a larger bound only adds rides at the end. *)
Theorem filter_ride_vector_prefix (source : RideVector)
    (min_time max_time : Q) (k k' : Z) :
  1 <= k -> k <= k' ->
  prefix (filter_ride_vector source min_time max_time k)
    (filter_ride_vector source min_time max_time k').
Proof.
  intros Hk Hkk'. unfold filter_ride_vector.
  rewrite !filter_loop_take by (cbn; lia). cbn [app].
  replace (Z.to_nat k) with (Z.to_nat k `min` Z.to_nat k')%nat by lia.
  rewrite <- take_take. apply prefix_take.
Qed.

Lemma filter_ride_vector_prefix_witness :
  1 <= 1 /\ 1 <= 3 /\
  prefix (filter_ride_vector [ride_A; ride_B; ride_C; ride_D] 4 10 1)
    (filter_ride_vector [ride_A; ride_B; ride_C; ride_D] 4 10 3).
Proof.
  split; [lia|]. split; [lia|].
  apply (filter_ride_vector_prefix [ride_A; ride_B; ride_C; ride_D] 4 10 1 3);
    lia.
Defined.

(** ** The dynamic solver, further *)

Lemma table_value_attained (considered : RideVector) (j : Z) :
  exists s,
    sublist s considered /\ exact_cost s <= Z.max 0 j /\
    (accumulated_time s == table_value considered j)%Q.
Proof.
  revert j. induction considered as [|item earlier IH]; intros j.
  - exists []. split; [constructor|]. split; [cbn; lia | reflexivity].
  - cbn [table_value].
    destruct (IH j) as (s & Hsub & Hcost & Htime).
    assert (exists s0, sublist s0 (item :: earlier) /\
              exact_cost s0 <= Z.max 0 j /\
              (accumulated_time s0 == table_value earlier j)%Q) as Hskip.
    { exists s. split; [now apply sublist_cons|]. split; assumption. }
    destruct (Z.geb_spec (j - cost item) 0) as [Hfit|Hnofit]; [|exact Hskip].
    unfold std_max. destruct (Qlt_bool _ _); [exact Hskip|].
    destruct (IH (j - cost item)) as (s' & Hsub' & Hcost' & Htime').
    exists (item :: s'). split; [now apply sublist_skip|].
    cbn [exact_cost accumulated_time]. split; [lia|].
    now apply double_add_proper.
Qed.

(** X8: for rides of strictly positive cost and a budget
    [0 <= B < INT_MAX], the loops of lines 286-302 fill the cache without
    leaving it, and the cell [(i, j)], for [i] up to the number of rides and
    [j] from 0 to [B], then holds the greatest total time of a selection
    among the first [i] rides whose costs add up to at most [j], where the
    time of a selection is added up in [double] in the input order of the
    rides, as [sum_ride_vector] does on the selection: no such selection
    has more time, and one has exactly that time. *)
Theorem fill_cache_cells_optimal (rides : RideVector) (B : Z) :
  Forall valid_ride rides -> 0 <= B -> B < INT_MAX ->
  exists cache,
    fill_cache rides B (init_cache (length rides) B) = Some cache /\
    forall (i : nat) (j : Z),
      (i <= length rides)%nat -> 0 <= j <= B ->
      exists q,
        cache_get cache i j = Some q /\
        (forall s, sublist s (take i rides) -> exact_cost s <= j ->
           (total_time_of s <= q)%Q) /\
        (exists s, sublist s (take i rides) /\ exact_cost s <= j /\
           (total_time_of s == q)%Q).
Proof.
  intros Hvalid HB _.
  destruct (fill_cache_spec rides B Hvalid HB) as (cache & Hfill & Hfilled).
  exists cache. split; [exact Hfill|].
  intros i j Hi Hj. exists (table_value (rev (take i rides)) j).
  split; [apply (rows_filled_get rides B Hvalid (length rides)); (assumption || lia)|].
  split.
  - intros s Hs Hcost. apply table_value_optimal; [|exact Hs | exact Hcost].
    now apply Forall_take.
  - destruct (table_value_attained (rev (take i rides)) j)
      as (s & Hsub & Hcost & Htime).
    exists (rev s). split.
    + rewrite <- (rev_involutive (take i rides)). now apply sublist_rev.
    + rewrite exact_cost_rev, <- accumulated_time_total.
      split; [lia | exact Htime].
Qed.

Lemma fill_cache_cells_optimal_witness :
  Forall valid_ride [ride_A; ride_B; ride_C; ride_D] /\ 0 <= 5 /\
  5 < INT_MAX /\
  exists cache,
    fill_cache [ride_A; ride_B; ride_C; ride_D] 5
      (init_cache (length [ride_A; ride_B; ride_C; ride_D]) 5) = Some cache /\
    forall (i : nat) (j : Z),
      (i <= length [ride_A; ride_B; ride_C; ride_D])%nat -> 0 <= j <= 5 ->
      exists q,
        cache_get cache i j = Some q /\
        (forall s, sublist s (take i [ride_A; ride_B; ride_C; ride_D]) ->
           exact_cost s <= j -> (total_time_of s <= q)%Q) /\
        (exists s, sublist s (take i [ride_A; ride_B; ride_C; ride_D]) /\
           exact_cost s <= j /\ (total_time_of s == q)%Q).
Proof.
  assert (Forall valid_ride [ride_A; ride_B; ride_C; ride_D]) as Hvalid
    by (repeat constructor).
  assert (5 < INT_MAX) as Hmax by reflexivity.
  split; [exact Hvalid|]. split; [lia|]. split; [exact Hmax|].
  apply (fill_cache_cells_optimal [ride_A; ride_B; ride_C; ride_D] 5 Hvalid);
    [lia | exact Hmax].
Defined.

Lemma valid_rides_no_cost (l : RideVector) :
  Forall valid_ride l -> exact_cost l <= 0 -> l = [].
Proof.
  intros Hvalid Hcost. destruct l as [|r l]; [reflexivity|].
  apply Forall_cons in Hvalid as [Hr Hl].
  pose proof (exact_cost_nonneg l Hl). unfold valid_ride in Hr.
  cbn [exact_cost] in Hcost. lia.
Qed.

(** X9: with a budget of 0, [dynamic_max_time] returns the empty vector for
    every input of rides of strictly positive cost. *)
Theorem dynamic_max_time_budget_0 (rides : RideVector) :
  Forall valid_ride rides -> dynamic_max_time rides 0 = Some [].
Proof.
  intros Hvalid.
  destruct (dynamic_max_time_table_value rides 0 Hvalid ltac:(lia))
    as (result & Hrun & Hsub & Hcost & _).
  rewrite Hrun. f_equal. apply valid_rides_no_cost; [|exact Hcost].
  exact (sublist_rev_Forall _ _ _ Hsub Hvalid).
Qed.

Lemma dynamic_max_time_budget_0_witness :
  Forall valid_ride [ride_A; ride_B; ride_C; ride_D] /\
  dynamic_max_time [ride_A; ride_B; ride_C; ride_D] 0 = Some [].
Proof.
  assert (Forall valid_ride [ride_A; ride_B; ride_C; ride_D]) as Hvalid
    by (repeat constructor).
  split; [exact Hvalid|].
  exact (dynamic_max_time_budget_0 [ride_A; ride_B; ride_C; ride_D] Hvalid).
Defined.

Lemma for_each_no_inner {A St : Type} (body : A -> Z -> St -> option St)
    (l : list A) (s : St) :
  for_each (fun i => for_each (body i) []) l s = Some s.
Proof. induction l as [|x l IH]; [reflexivity | exact IH]. Qed.

(** X10: with a negative budget and at least one ride, the loops that fill
    the cache of [dynamic_max_time] write nothing, and the reconstruction
    then reads [cache[i][tempcost]] at the negative [tempcost], outside the
    row: the call has no defined result. *)
Theorem dynamic_max_time_negative_budget (rides : RideVector) (B : Z) :
  B < 0 -> rides <> [] ->
  fill_cache rides B (init_cache (length rides) B)
  = Some (init_cache (length rides) B) /\
  backtrack rides B (init_cache (length rides) B) = None /\
  dynamic_max_time rides B = None.
Proof.
  intros HB Hne.
  assert (fill_cache rides B (init_cache (length rides) B)
          = Some (init_cache (length rides) B)) as Hfill.
  { unfold fill_cache, seqZ. replace (Z.to_nat B) with 0%nat by lia.
    apply (for_each_no_inner (fun i j => fill_cell rides i j)). }
  assert (backtrack rides B (init_cache (length rides) B) = None) as Hback.
  { unfold backtrack. destruct rides as [|r rest]; [congruence|].
    cbn [length]. rewrite rev_seq_S. cbn [for_each].
    unfold backtrack_step at 1, cache_get at 1.
    destruct (Z.ltb_spec B 0); [reflexivity | lia]. }
  split; [exact Hfill|]. split; [exact Hback|].
  unfold dynamic_max_time. now rewrite Hfill, Hback.
Qed.

Lemma dynamic_max_time_negative_budget_witness :
  -1 < 0 /\ [ride_A] <> [] /\
  fill_cache [ride_A] (-1) (init_cache (length [ride_A]) (-1))
  = Some (init_cache (length [ride_A]) (-1)) /\
  backtrack [ride_A] (-1) (init_cache (length [ride_A]) (-1)) = None /\
  dynamic_max_time [ride_A] (-1) = None.
Proof.
  assert ([ride_A] <> []) as Hne by discriminate.
  split; [lia|]. split; [exact Hne|].
  apply (dynamic_max_time_negative_budget [ride_A] (-1)); [lia | exact Hne].
Defined.

Section BacktrackPositive.

Variable rides : RideVector.
Variable B : Z.
Variable cache : Cache.
Hypothesis rides_valid : Forall valid_ride rides.
Hypothesis cache_filled : rows_filled rides B (length rides) cache.

Lemma backtrack_positive (i : nat) :
  (i <= length rides)%nat ->
  forall (tempcost : Z) (result : RideVector) (final : Z * RideVector),
    0 <= tempcost <= B ->
    for_each (backtrack_step rides cache) (rev (seq 1 i)) (tempcost, result)
    = Some final ->
    exists chosen,
      snd final = result ++ chosen /\
      Forall (fun r => (0 < time r)%Q) chosen.
Proof.
  induction i as [|i IH]; intros Hi tempcost result final Htc Hrun.
  - cbn in Hrun. injection Hrun as <-. exists [].
    split; [cbn; now rewrite app_nil_r | constructor].
  - destruct (lookup_lt_is_Some_2 rides i ltac:(lia)) as [item Hitem].
    rewrite rev_seq_S in Hrun. cbn [for_each] in Hrun.
    unfold backtrack_step at 1 in Hrun.
    replace (S i - 1)%nat with i in Hrun by lia.
    rewrite (rows_filled_get rides B rides_valid _ cache (S i) tempcost
               cache_filled) in Hrun by lia.
    rewrite (rows_filled_get rides B rides_valid _ cache i tempcost
               cache_filled) in Hrun by lia.
    rewrite Hitem, (rev_take_S _ _ _ Hitem) in Hrun.
    destruct (Qeq_bool _ _) eqn:Eq.
    + exact (IH ltac:(lia) tempcost result final Htc Hrun).
    + apply Qeq_bool_neq in Eq. cbn [table_value] in Eq.
      pose proof (proj1 (Forall_lookup _ _) rides_valid i item Hitem) as Hpos.
      unfold valid_ride in Hpos.
      destruct (Z.geb_spec (tempcost - cost item) 0) as [Hfit|Hnofit];
        [|exfalso; apply Eq; reflexivity].
      assert ((0 < time item)%Q) as Htime.
      { pose proof (table_value_mono (rev (take i rides))
                      (tempcost - cost item) tempcost ltac:(lia)) as Hmono.
        unfold std_max in Eq. destruct (Qlt_bool _ _) eqn:Elt;
          [exfalso; apply Eq; reflexivity|].
        apply Qlt_bool_false in Elt.
        destruct (Qlt_le_dec 0 (time item)) as [Hlt|Hle]; [exact Hlt|].
        exfalso. apply Eq.
        pose proof (double_add_nonpos (time item)
                      (table_value (rev (take i rides)) (tempcost - cost item))
                      Hle (table_value_nonneg _ _) (table_value_fixed _ _)).
        lra. }
      destruct (IH ltac:(lia) (tempcost - cost item) (result ++ [item]) final
                  ltac:(lia) Hrun) as (chosen & Hfinal & Hall).
      exists (item :: chosen). split.
      * rewrite Hfinal. now rewrite <- app_assoc.
      * constructor; assumption.
Qed.

End BacktrackPositive.

Lemma cost_le_total (l : RideVector) (r : RideItem) :
  Forall valid_ride l -> In r l -> cost r <= exact_cost l.
Proof.
  induction 1 as [|x l Hx Hl IH]; intros Hin; [destruct Hin|].
  cbn [exact_cost]. unfold valid_ride in Hx.
  pose proof (exact_cost_nonneg l Hl).
  destruct Hin as [->|Hin]; [lia|]. specialize (IH Hin). lia.
Qed.

(** X11: for rides of strictly positive cost and a budget [B >= 0], every
    ride that [dynamic_max_time] selects has strictly positive time and a
    cost of at most [B]: a ride that adds no time, or that alone exceeds the
    budget, is never selected. *)
Theorem dynamic_max_time_selected_rides (rides : RideVector) (B : Z) :
  Forall valid_ride rides -> 0 <= B ->
  exists result,
    dynamic_max_time rides B = Some result /\
    Forall (fun r => (0 < time r)%Q /\ cost r <= B) result.
Proof.
  intros Hvalid HB.
  destruct (fill_cache_spec rides B Hvalid HB) as (cache & Hfill & Hfilled).
  destruct (backtrack_spec rides B cache Hvalid Hfilled (length rides)
              ltac:(lia) B [] ltac:(lia))
    as (tc' & chosen & Hrun & Hsub & Hcost & Htc' & _).
  destruct (backtrack_positive rides B cache Hvalid Hfilled (length rides)
              ltac:(lia) B [] _ ltac:(lia) Hrun) as (chosen' & Heq & Hpos).
  cbn in Heq. subst chosen'.
  exists chosen. unfold dynamic_max_time, backtrack. rewrite Hfill, Hrun.
  split; [reflexivity|].
  rewrite firstn_all in Hsub.
  assert (Forall valid_ride chosen) as Hchosen
    by exact (sublist_rev_Forall _ _ _ Hsub Hvalid).
  apply Forall_forall. intros r Hr. split.
  - exact (proj1 (Forall_forall _ _) Hpos r Hr).
  - apply list_elem_of_In in Hr.
    pose proof (cost_le_total chosen r Hchosen Hr). lia.
Qed.

Lemma dynamic_max_time_selected_rides_witness :
  Forall valid_ride [ride_A; ride_idle; ride_D] /\ 0 <= 4 /\
  exists result,
    dynamic_max_time [ride_A; ride_idle; ride_D] 4 = Some result /\
    Forall (fun r => (0 < time r)%Q /\ cost r <= 4) result.
Proof.
  assert (Forall valid_ride [ride_A; ride_idle; ride_D]) as Hvalid
    by (repeat constructor).
  split; [exact Hvalid|]. split; [lia|].
  apply (dynamic_max_time_selected_rides [ride_A; ride_idle; ride_D] 4 Hvalid).
  lia.
Defined.

(** ** The exhaustive solver, further *)

(** X12: for fewer than 64 rides and a budget [>= 0], the vector that
    [exhaustive_max_time] returns is a sub-sequence of the input: the
    selected rides keep their input order. *)
Theorem exhaustive_max_time_sublist (rides : RideVector) (total_cost : Q)
    (fuel : nat) :
  (length rides < 64)%nat -> (0 <= total_cost)%Q ->
  2 ^ Z.of_nat (length rides) + 2 <= Z.of_nat fuel ->
  exists best,
    exhaustive_max_time fuel rides total_cost = Some best /\
    sublist best rides.
Proof.
  intros Hn Hbudget Hfuel.
  destruct (exhaustive_run_spec rides total_cost fuel Hn Hbudget Hfuel)
    as (best & Hrun & Hres).
  destruct (exhaustive_result_optimal rides total_cost best Hbudget Hres)
    as (_ & (b & _ & ->) & _).
  eexists. split; [unfold exhaustive_max_time; now rewrite Hrun|].
  apply pattern_subset_sublist.
Qed.

Lemma exhaustive_max_time_sublist_witness :
  (length [ride_A; ride_B] < 64)%nat /\ (0 <= 5)%Q /\
  2 ^ Z.of_nat (length [ride_A; ride_B]) + 2 <= Z.of_nat 6 /\
  exists best,
    exhaustive_max_time 6 [ride_A; ride_B] 5 = Some best /\
    sublist best [ride_A; ride_B].
Proof.
  assert ((length [ride_A; ride_B] < 64)%nat) as Hn by (cbn; lia).
  assert ((0 <= 5)%Q) as Hbudget by (unfold Qle; cbn; lia).
  assert (2 ^ Z.of_nat (length [ride_A; ride_B]) + 2 <= Z.of_nat 6) as Hfuel
    by (cbn; lia).
  split; [exact Hn|]. split; [exact Hbudget|]. split; [exact Hfuel|].
  exact (exhaustive_max_time_sublist [ride_A; ride_B] 5 6 Hn Hbudget Hfuel).
Defined.

(** X13: with 64 rides or more the loop of [exhaustive_max_time] never
    ends: [n] is capped at 64 and the guard [bits <= pow(2, 64)] holds for
    every value of the 64-bit [bits], so no amount of fuel gives a result. *)
Theorem exhaustive_max_time_64_rides (rides : RideVector) (total_cost : Q)
    (fuel : nat) :
  (64 <= length rides)%nat ->
  exhaustive_max_time fuel rides total_cost = None.
Proof.
  intros Hn. unfold exhaustive_max_time.
  now rewrite (exhaustive_run_64 rides total_cost fuel Hn).
Qed.

Lemma exhaustive_max_time_64_rides_witness :
  (64 <= length (repeat ride_A 64))%nat /\
  exhaustive_max_time 3 (repeat ride_A 64) 5 = None.
Proof.
  assert ((64 <= length (repeat ride_A 64))%nat) as Hn
    by (rewrite repeat_length; lia).
  split; [exact Hn|].
  exact (exhaustive_max_time_64_rides (repeat ride_A 64) 5 3 Hn).
Defined.

Lemma fold_visit_none_within (rides : RideVector) (total_cost : Q)
    (patterns : list Z) :
  (forall bits, ~ within_budget total_cost (pattern_subset rides bits)) ->
  fold_left (visit_pattern rides total_cost) patterns [] = [].
Proof.
  intros Hnone. induction patterns as [|bits patterns IH]; [reflexivity|].
  cbn [fold_left]. unfold visit_pattern at 2.
  rewrite (proj2 (choose_best_rule total_cost [] (pattern_subset rides bits)));
    [exact IH|].
  intros [Hfit _]. exact (Hnone bits Hfit).
Qed.

(** X14: for fewer than 53 rides, of strictly positive costs that add up
    to at most [INT_MAX], and a negative budget, no subset passes the test
    of line 360, not even the empty one, and [exhaustive_max_time] returns
    the empty vector. *)
Theorem exhaustive_max_time_negative_budget (rides : RideVector)
    (total_cost : Q) (fuel : nat) :
  (length rides < 53)%nat -> Forall valid_ride rides ->
  exact_cost rides <= INT_MAX ->
  (total_cost < 0)%Q ->
  2 ^ Z.of_nat (length rides) + 2 <= Z.of_nat fuel ->
  exhaustive_max_time fuel rides total_cost = Some [] /\
  (forall bits candidate,
     build_candidate rides (length rides) bits = Some candidate ->
     ~ within_budget total_cost candidate).
Proof.
  intros Hn Hvalid Hmax Hbudget Hfuel.
  assert (forall bits, ~ within_budget total_cost (pattern_subset rides bits))
    as Hnone.
  { intros bits Hfit.
    apply (within_budget_exact rides) in Hfit;
      [|assumption|assumption|apply pattern_subset_sublist].
    pose proof (exact_cost_nonneg (pattern_subset rides bits)
                  (sublist_Forall _ _ _ (pattern_subset_sublist rides bits)
                     Hvalid)) as Hnn.
    assert ((0 <= inject_Z (exact_cost (pattern_subset rides bits)))%Q)
      by (unfold Qle; cbn; lia).
    lra. }
  split.
  - unfold exhaustive_max_time.
    rewrite (exhaustive_run_fold rides total_cost fuel ltac:(lia) Hfuel).
    cbn [fmap option_fmap option_map fst]. f_equal.
    now apply fold_visit_none_within.
  - intros bits candidate Hcand. rewrite build_candidate_spec in Hcand.
    injection Hcand as <-. apply Hnone.
Qed.

Lemma exhaustive_max_time_negative_budget_witness :
  (length [ride_A; ride_B] < 53)%nat /\ Forall valid_ride [ride_A; ride_B] /\
  exact_cost [ride_A; ride_B] <= INT_MAX /\
  (-1 < 0)%Q /\
  2 ^ Z.of_nat (length [ride_A; ride_B]) + 2 <= Z.of_nat 6 /\
  exhaustive_max_time 6 [ride_A; ride_B] (-1) = Some [] /\
  (forall bits candidate,
     build_candidate [ride_A; ride_B] (length [ride_A; ride_B]) bits
     = Some candidate ->
     ~ within_budget (-1) candidate).
Proof.
  assert ((length [ride_A; ride_B] < 53)%nat) as Hn by (cbn; lia).
  assert (Forall valid_ride [ride_A; ride_B]) as Hvalid by (repeat constructor).
  assert (exact_cost [ride_A; ride_B] <= INT_MAX) as Hmax
    by (vm_compute; discriminate).
  assert ((-1 < 0)%Q) as Hbudget by reflexivity.
  assert (2 ^ Z.of_nat (length [ride_A; ride_B]) + 2 <= Z.of_nat 6) as Hfuel
    by (cbn; lia).
  split; [exact Hn|]. split; [exact Hvalid|]. split; [exact Hmax|].
  split; [exact Hbudget|]. split; [exact Hfuel|].
  exact (exhaustive_max_time_negative_budget [ride_A; ride_B] (-1) 6
           Hn Hvalid Hmax Hbudget Hfuel).
Defined.




(** X16: for fewer than 53 rides and a budget [>= 0], the total time of
    the vector that [exhaustive_max_time] returns, as [sum_ride_vector]
    adds it up, is never negative, whatever the times of the rides are. *)
Theorem exhaustive_max_time_time_nonneg (rides : RideVector) (total_cost : Q)
    (fuel : nat) :
  (length rides < 53)%nat -> (0 <= total_cost)%Q ->
  2 ^ Z.of_nat (length rides) + 2 <= Z.of_nat fuel ->
  exists best,
    exhaustive_max_time fuel rides total_cost = Some best /\
    (0 <= snd (sum_ride_vector best))%Q.
Proof.
  intros Hn Hbudget Hfuel.
  destruct (exhaustive_run_spec rides total_cost fuel ltac:(lia) Hbudget Hfuel)
    as (best & Hrun & Hres).
  exists best. split; [unfold exhaustive_max_time; now rewrite Hrun|].
  change (0 <= total_time_of best)%Q.
  destruct Hres as [[-> _]|(b0 & _ & _ & _ & Hnn & _)]; [|exact Hnn].
  change (total_time_of []) with 0%Q. lra.
Qed.

Lemma exhaustive_max_time_time_nonneg_witness :
  (length [mkRideItem "slow" 1 (-5); mkRideItem "slower" 1 (-3)] < 53)%nat /\
  (0 <= 5)%Q /\
  2 ^ Z.of_nat (length [mkRideItem "slow" 1 (-5); mkRideItem "slower" 1 (-3)])
  + 2 <= Z.of_nat 6 /\
  exists best,
    exhaustive_max_time 6
      [mkRideItem "slow" 1 (-5); mkRideItem "slower" 1 (-3)] 5 = Some best /\
    (0 <= snd (sum_ride_vector best))%Q.
Proof.
  assert ((length [mkRideItem "slow" 1 (-5); mkRideItem "slower" 1 (-3)] < 53)%nat)
    as Hn by (cbn; lia).
  assert ((0 <= 5)%Q) as Hbudget by (unfold Qle; cbn; lia).
  assert (2 ^ Z.of_nat
              (length [mkRideItem "slow" 1 (-5); mkRideItem "slower" 1 (-3)])
          + 2 <= Z.of_nat 6) as Hfuel by (cbn; lia).
  split; [exact Hn|]. split; [exact Hbudget|]. split; [exact Hfuel|].
  exact (exhaustive_max_time_time_nonneg
           [mkRideItem "slow" 1 (-5); mkRideItem "slower" 1 (-3)] 5 6
           Hn Hbudget Hfuel).
Defined.

(** ** getTimeSubsets *)

Lemma subsets_loop_spec (rest : RideVector) (acc : list RideVector) :
  subsets_loop rest acc
  = flat_map (fun t => map (fun a => a ++ t) acc) (getTimeSubsets rest).
Proof.
  unfold getTimeSubsets. revert acc.
  induction rest as [|x rest IH]; intros acc.
  - cbn. rewrite app_nil_r. induction acc as [|a acc IHacc]; [reflexivity|].
    cbn. now rewrite app_nil_r, <- IHacc.
  - cbn [subsets_loop]. rewrite (IH (acc ++ _)), (IH ([[]] ++ _)).
    cbn [map app].
    generalize (subsets_loop rest [[]]). clear IH.
    intros L. induction L as [|t L IHL]; [reflexivity|].
    cbn [flat_map map app]. rewrite IHL.
    rewrite map_app, map_map, <- app_assoc. f_equal. f_equal.
    apply map_ext. intros a. now rewrite <- app_assoc.
Qed.

Lemma getTimeSubsets_cons (x : RideItem) (rest : RideVector) :
  getTimeSubsets (x :: rest)
  = flat_map (fun t => [t; x :: t]) (getTimeSubsets rest).
Proof.
  unfold getTimeSubsets at 1. cbn [subsets_loop map app].
  rewrite subsets_loop_spec. reflexivity.
Qed.

Lemma lookup_pairs (x : RideItem) (L : list RideVector) (k : nat) :
  flat_map (fun t => [t; x :: t]) L !! k
  = match L !! Nat.div2 k with
    | Some t => Some (if Nat.odd k then x :: t else t)
    | None => None
    end.
Proof.
  revert k. induction L as [|t L IH]; intros k.
  - now destruct k.
  - destruct k as [|[|k]]; [reflexivity | reflexivity |].
    cbn [flat_map app]. change ((?a :: ?b :: ?l) !! S (S k)) with (l !! k).
    rewrite IH. change (Nat.div2 (S (S k))) with (S (Nat.div2 k)).
    change (Nat.odd (S (S k))) with (Nat.odd k). reflexivity.
Qed.

Lemma length_pairs (x : RideItem) (L : list RideVector) :
  length (flat_map (fun t => [t; x :: t]) L) = (2 * length L)%nat.
Proof. induction L as [|t L IH]; cbn in *; lia. Qed.

Lemma odd_of_nat (k : nat) : Z.odd (Z.of_nat k) = Nat.odd k.
Proof.
  destruct (Nat.Even_or_Odd k) as [[m ->]|[m ->]].
  - rewrite Nat2Z.inj_mul, Z.odd_mul, Nat.odd_mul. reflexivity.
  - rewrite Nat2Z.inj_add, Nat2Z.inj_mul, Z.add_comm, Z.odd_add_mul_2.
    rewrite Nat.add_comm, Nat.odd_add_mul_2. reflexivity.
Qed.

Lemma getTimeSubsets_lookup (source : RideVector) (k : nat) :
  Z.of_nat k < 2 ^ Z.of_nat (length source) ->
  getTimeSubsets source !! k = Some (pattern_subset source (Z.of_nat k)).
Proof.
  revert k. induction source as [|x rest IH]; intros k Hk.
  - cbn in Hk. now replace k with 0%nat by lia.
  - cbn [length] in Hk. rewrite pow2_S in Hk.
    rewrite getTimeSubsets_cons, lookup_pairs.
    pose proof (Nat.div2_odd k) as Hdiv.
    rewrite IH by (destruct (Nat.odd k); cbn in Hdiv; lia).
    cbn [pattern_subset].
    now rewrite odd_of_nat, Nat2Z.inj_div2.
Qed.

(** X17: [getTimeSubsets] returns [2^N] vectors for a source of [N]
    rides. *)
Theorem getTimeSubsets_length (source : RideVector) :
  Z.of_nat (length (getTimeSubsets source)) = 2 ^ Z.of_nat (length source).
Proof.
  induction source as [|x rest IH]; [reflexivity|].
  rewrite getTimeSubsets_cons, length_pairs. cbn [length].
  rewrite pow2_S, <- IH. lia.
Qed.

(** X18: [getTimeSubsets] lists the subsets in increasing bit-pattern
    order: for [0 <= bits < 2^N], the vector at index [bits] is the
    candidate that the inner loop of [exhaustive_max_time] builds for the
    pattern [bits]. *)
Theorem getTimeSubsets_bit_pattern_order (source : RideVector) (bits : Z) :
  0 <= bits < 2 ^ Z.of_nat (length source) ->
  getTimeSubsets source !! Z.to_nat bits
  = build_candidate source (length source) bits.
Proof.
  intros Hbits. rewrite build_candidate_spec, getTimeSubsets_lookup by lia.
  now rewrite Z2Nat.id by lia.
Qed.

Lemma getTimeSubsets_bit_pattern_order_witness :
  0 <= 2 < 2 ^ Z.of_nat (length [ride_A; ride_B]) /\
  getTimeSubsets [ride_A; ride_B] !! Z.to_nat 2
  = build_candidate [ride_A; ride_B] (length [ride_A; ride_B]) 2.
Proof.
  assert (0 <= 2 < 2 ^ Z.of_nat (length [ride_A; ride_B])) as Hbits
    by (cbn; lia).
  split; [exact Hbits|].
  exact (getTimeSubsets_bit_pattern_order [ride_A; ride_B] 2 Hbits).
Defined.

(** X19: the vectors that [getTimeSubsets] returns are exactly the
    sub-sequences of the source: each of them is one, and each
    sub-sequence of the source is among them. *)
Theorem getTimeSubsets_sublists (source s : RideVector) :
  In s (getTimeSubsets source) <-> sublist s source.
Proof.
  rewrite <- list_elem_of_In, list_elem_of_lookup. split.
  - intros [k Hk].
    assert (Z.of_nat k < 2 ^ Z.of_nat (length source)) as Hlt.
    { rewrite <- getTimeSubsets_length.
      apply inj_lt. apply lookup_lt_is_Some. now exists s. }
    rewrite getTimeSubsets_lookup in Hk by exact Hlt.
    injection Hk as <-. apply pattern_subset_sublist.
  - intros Hsub. destruct (sublist_pattern source s Hsub) as (b & Hb & <-).
    exists (Z.to_nat b). rewrite getTimeSubsets_lookup by lia.
    now rewrite Z2Nat.id by lia.
Qed.

(** ** print_2d_cache *)

(** X20: for a cache of exactly one row, such as the one that
    [dynamic_max_time] builds for an empty vector of rides, the size test
    of [print_2d_cache] reads [cache[1]] outside the vector: the call has
    no defined output. *)
Theorem print_2d_cache_single_row (show_cell : Q -> string) (cache : Cache) :
  length cache = 1%nat -> print_2d_cache show_cell cache = None.
Proof.
  intros Hlen. destruct cache as [|row [|row' rest]]; try discriminate.
  reflexivity.
Qed.

Lemma print_2d_cache_single_row_witness :
  length (init_cache 0 5) = 1%nat /\
  print_2d_cache (fun _ => "0"%string) (init_cache 0 5) = None.
Proof.
  assert (length (init_cache 0 5) = 1%nat) as Hlen by reflexivity.
  split; [exact Hlen|].
  exact (print_2d_cache_single_row (fun _ => "0"%string) (init_cache 0 5) Hlen).
Defined.

(** X21: for a cache of the shape that [dynamic_max_time] builds for
    [n >= 1] rides and the budget [B], that is [n + 1] rows of [B + 2]
    cells, [print_2d_cache] writes the title and [[too large]] when there
    are more than 250 rows or more than 250 cells in a row, and the title
    followed by one line for each row otherwise. *)
Theorem print_2d_cache_solver_cache (show_cell : Q -> string) (n : nat)
    (B : Z) (cache : Cache) :
  cache_shape n B cache -> (1 <= n)%nat ->
  print_2d_cache show_cell cache
  = Some (if (250 <? n + 1)%nat || (250 <? Z.to_nat (B + 2))%nat
          then ["*** 2D Cache ***"; "[too large]"]%string
          else "*** 2D Cache ***"%string :: map (print_row show_cell) cache).
Proof.
  intros [Hlen Hrows] Hn. unfold print_2d_cache. rewrite Hlen.
  destruct (Nat.eqb_spec (n + 1) 0); [lia|].
  destruct (250 <? n + 1)%nat; [reflexivity|]. cbn [orb].
  destruct (lookup_lt_is_Some_2 cache 1%nat ltac:(lia)) as [row Hrow].
  rewrite Hrow.
  pose proof (proj1 (Forall_lookup _ _) Hrows 1%nat row Hrow) as Hwidth.
  cbv beta in Hwidth. rewrite Hwidth.
  now destruct (250 <? Z.to_nat (B + 2))%nat.
Qed.

Lemma print_2d_cache_solver_cache_witness :
  cache_shape 1 3 (init_cache 1 3) /\ (1 <= 1)%nat /\
  print_2d_cache (fun _ => "0"%string) (init_cache 1 3)
  = Some (if (250 <? 1 + 1)%nat || (250 <? Z.to_nat (3 + 2))%nat
          then ["*** 2D Cache ***"; "[too large]"]%string
          else "*** 2D Cache ***"%string
               :: map (print_row (fun _ => "0"%string)) (init_cache 1 3)).
Proof.
  assert (cache_shape 1 3 (init_cache 1 3)) as Hshape
    by (split; [reflexivity | repeat constructor]).
  assert ((1 <= 1)%nat) as Hn by lia.
  split; [exact Hshape|]. split; [exact Hn|].
  exact (print_2d_cache_solver_cache (fun _ => "0"%string) 1 3
           (init_cache 1 3) Hshape Hn).
Defined.

(** ** The loader, further *)

Lemma append_snoc (acc rest : string) (c : ascii) :
  (acc +:+ String c EmptyString) +:+ rest = acc +:+ String c rest.
Proof.
  induction acc as [|a acc IH]; [reflexivity|].
  change (String a ((acc +:+ String c EmptyString) +:+ rest)
          = String a (acc +:+ String c rest)).
  now f_equal.
Qed.

Lemma append_empty_r (s : string) : s +:+ EmptyString = s.
Proof.
  induction s as [|a s IH]; [reflexivity|].
  change (String a (s +:+ EmptyString) = String a s). now f_equal.
Qed.

Lemma split_fields_free (field rest acc : string) :
  free_of_delimiter field = true ->
  split_fields (field +:+ rest) acc = split_fields rest (acc +:+ field).
Proof.
  revert acc. induction field as [|c field IH]; intros acc Hfree.
  - cbn. now rewrite append_empty_r.
  - cbn in Hfree. apply andb_true_iff in Hfree as [Hc Hfree].
    apply negb_true_iff in Hc.
    change (String c field +:+ rest) with (String c (field +:+ rest)).
    cbn [split_fields]. rewrite Hc.
    rewrite IH by exact Hfree. now rewrite append_snoc.
Qed.

(** X22: writing fields with ['^'] between them and splitting the line
    again gives the fields back, when no field holds the delimiter and the
    last field is not empty. *)
Theorem split_fields_join_fields (fields : list string) :
  Forall (fun field => free_of_delimiter field = true) fields ->
  last fields <> Some EmptyString ->
  split_fields (join_fields fields) EmptyString = fields.
Proof.
  induction 1 as [|field rest Hfree Hrest IH]; intros Hlast; [reflexivity|].
  destruct rest as [|field' rest'].
  - cbn [join_fields].
    pose proof (split_fields_free field EmptyString EmptyString Hfree) as Hsplit.
    rewrite append_empty_r in Hsplit. rewrite Hsplit.
    destruct field; [now cbn in Hlast | reflexivity].
  - change (join_fields (field :: field' :: rest'))
      with (field +:+ String "^"%char (join_fields (field' :: rest'))).
    rewrite split_fields_free by exact Hfree. cbn [split_fields].
    change (Ascii.eqb "^"%char "^"%char) with true. cbv iota.
    f_equal. apply IH. exact Hlast.
Qed.

Lemma split_fields_join_fields_witness :
  Forall (fun field => free_of_delimiter field = true)
    ["castle"; ""; "12"]%string /\
  last ["castle"; ""; "12"]%string <> Some EmptyString /\
  split_fields (join_fields ["castle"; ""; "12"]%string) EmptyString
  = ["castle"; ""; "12"]%string.
Proof.
  assert (Forall (fun field => free_of_delimiter field = true)
            ["castle"; ""; "12"]%string) as Hfree by (repeat constructor).
  assert (last ["castle"; ""; "12"]%string <> Some EmptyString) as Hlast
    by discriminate.
  split; [exact Hfree|]. split; [exact Hlast|].
  exact (split_fields_join_fields ["castle"; ""; "12"]%string Hfree Hlast).
Defined.

Section LoaderFacts.

Variable extract_double : string -> option Q.
Variable indeterminate : Q.

Local Abbreviation load := (load_lines extract_double indeterminate).

Local Abbreviation value_of field :=
  (match extract_double field with
   | Some v => v
   | None => 0%Q
   end).

Lemma load_lines_cons (line : string) (rest : list string) (line_number : Z)
    (result : RideVector) :
  load (line :: rest) line_number result
  = if line_number + 1 =? 1
    then load rest (line_number + 1) result
    else match split_fields line EmptyString with
         | [descr; cost_field; time_field] =>
             match new_RideItem descr (value_of cost_field)
                     (value_of time_field) with
             | Some item => load rest (line_number + 1) (result ++ [item])
             | None => LoadAbort
             end
         | _ => LoadFailure
         end.
Proof.
  cbn [load_lines]. destruct (line_number + 1 =? 1); [reflexivity|].
  destruct (split_fields line EmptyString) as [|f1 [|f2 [|f3 [|f4 l]]]];
    reflexivity.
Qed.

Lemma load_lines_app (lines1 lines2 : list string) (line_number : Z)
    (result : RideVector) :
  load (lines1 ++ lines2) line_number result
  = match load lines1 line_number result with
    | Loaded result' =>
        load lines2 (line_number + Z.of_nat (length lines1)) result'
    | outcome => outcome
    end.
Proof.
  revert line_number result.
  induction lines1 as [|line lines1 IH]; intros line_number result.
  - cbn [app length load_lines]. now rewrite Z.add_0_r.
  - cbn [app length]. rewrite !load_lines_cons.
    replace (line_number + Z.of_nat (S (length lines1)))
      with (line_number + 1 + Z.of_nat (length lines1)) by lia.
    destruct (line_number + 1 =? 1); [apply IH|].
    destruct (split_fields line EmptyString) as [|f1 [|f2 [|f3 [|f4 l]]]];
      try reflexivity.
    destruct (new_RideItem _ _ _); [apply IH | reflexivity].
Qed.

Lemma load_lines_loaded (lines : list string) (line_number : Z)
    (result loaded : RideVector) :
  1 <= line_number ->
  load lines line_number result = Loaded loaded ->
  length loaded = (length result + length lines)%nat /\
  (Forall loaded_ride_ok result -> Forall loaded_ride_ok loaded).
Proof.
  revert line_number result.
  induction lines as [|line lines IH]; intros line_number result Hnum Hload.
  - cbn in Hload. injection Hload as <-. split; [cbn; lia | tauto].
  - rewrite load_lines_cons in Hload.
    destruct (Z.eqb_spec (line_number + 1) 1); [lia|].
    destruct (split_fields line EmptyString) as [|f1 [|f2 [|f3 [|f4 l]]]];
      try discriminate.
    destruct (new_RideItem _ _ _) as [item|] eqn:Enew; [|discriminate].
    destruct (IH (line_number + 1) _ ltac:(lia) Hload) as [Hlen Hok].
    split; [rewrite Hlen, length_app; cbn; lia|].
    intros Hres. apply Hok. apply Forall_app. split; [exact Hres|].
    constructor; [|constructor].
    unfold new_RideItem in Enew.
    destruct (negb (String.eqb f1 EmptyString)) eqn:Edescr; [|discriminate].
    destruct (0 <? double_to_size_t (value_of f2)); [|discriminate].
    injection Enew as <-. unfold loaded_ride_ok. cbn.
    apply negb_true_iff in Edescr. now apply String.eqb_neq.
Qed.

End LoaderFacts.

(** X23: loading is sequential.  The outcome for a list of lines followed
    by a second list is the outcome for the first list when that is a
    failure or an abort, and otherwise the outcome of going on with the
    second list from the vector and the line count that the first list
    left. *)
Theorem load_lines_sequential (extract_double : string -> option Q)
    (indeterminate : Q) (lines1 lines2 : list string) (line_number : Z)
    (result : RideVector) :
  load_lines extract_double indeterminate (lines1 ++ lines2) line_number result
  = match load_lines extract_double indeterminate lines1 line_number result with
    | Loaded result' =>
        load_lines extract_double indeterminate lines2
          (line_number + Z.of_nat (length lines1)) result'
    | outcome => outcome
    end.
Proof. apply load_lines_app. Qed.

(** X24: every ride of a vector that [load_ride_database] returns has a
    non-empty description. *)
Theorem load_ride_database_rides_ok (extract_double : string -> option Q)
    (indeterminate : Q) (file : option (list string)) (loaded : RideVector) :
  load_ride_database extract_double indeterminate file = Loaded loaded ->
  Forall loaded_ride_ok loaded.
Proof.
  destruct file as [[|header lines]|]; cbn [load_ride_database]; intros Hload.
  - cbn in Hload. injection Hload as <-. constructor.
  - rewrite load_lines_cons in Hload. cbn [Z.add Z.eqb Pos.eqb] in Hload.
    apply (load_lines_loaded _ _ _ 1 _ _ ltac:(lia) Hload). constructor.
  - discriminate.
Qed.

Lemma load_ride_database_rides_ok_witness :
  load_ride_database read_unsigned 0
    (Some ["description^cost^time"; "castle^10^25"; "wheel^7^12"]%string)
  = Loaded [mkRideItem "castle" 10 (inject_Z 25);
            mkRideItem "wheel" 7 (inject_Z 12)] /\
  Forall loaded_ride_ok
    [mkRideItem "castle" 10 (inject_Z 25); mkRideItem "wheel" 7 (inject_Z 12)].
Proof.
  assert (load_ride_database read_unsigned 0
            (Some ["description^cost^time"; "castle^10^25"; "wheel^7^12"]%string)
          = Loaded [mkRideItem "castle" 10 (inject_Z 25);
                    mkRideItem "wheel" 7 (inject_Z 12)]) as Hload
    by reflexivity.
  split; [exact Hload|].
  exact (load_ride_database_rides_ok read_unsigned 0 _ _ Hload).
Defined.

(** X25: when [load_ride_database] returns a vector, the vector has one
    ride for each line of the file after the first: the first line is
    dropped whatever it holds, and no later line is skipped. *)
Theorem load_ride_database_one_ride_per_record
    (extract_double : string -> option Q) (indeterminate : Q)
    (lines : list string) (loaded : RideVector) :
  load_ride_database extract_double indeterminate (Some lines) = Loaded loaded ->
  length loaded = Nat.pred (length lines).
Proof.
  destruct lines as [|header lines]; cbn [load_ride_database]; intros Hload.
  - cbn in Hload. now injection Hload as <-.
  - rewrite load_lines_cons in Hload. cbn [Z.add Z.eqb Pos.eqb] in Hload.
    destruct (load_lines_loaded _ _ _ 1 _ _ ltac:(lia) Hload) as [Hlen _].
    cbn in Hlen |- *. exact Hlen.
Qed.

Lemma load_ride_database_one_ride_per_record_witness :
  load_ride_database read_unsigned 0
    (Some ["description^cost^time"; "castle^10^abc"; "wheel^7^12"]%string)
  = Loaded [mkRideItem "castle" 10 0; mkRideItem "wheel" 7 (inject_Z 12)] /\
  length [mkRideItem "castle" 10 0; mkRideItem "wheel" 7 (inject_Z 12)]
  = Nat.pred
      (length ["description^cost^time"; "castle^10^abc"; "wheel^7^12"]%string).
Proof.
  assert (load_ride_database read_unsigned 0
            (Some ["description^cost^time"; "castle^10^abc"; "wheel^7^12"]%string)
          = Loaded [mkRideItem "castle" 10 0;
                    mkRideItem "wheel" 7 (inject_Z 12)]) as Hload
    by reflexivity.
  split; [exact Hload|].
  exact (load_ride_database_one_ride_per_record read_unsigned 0 _ _ Hload).
Defined.

(** X26: a record whose field count is not 3 makes the whole load fail,
    wherever it stands after the first line: the rides of the records
    before it are not returned, and the lines after it are not read. *)
Theorem load_ride_database_bad_record (extract_double : string -> option Q)
    (indeterminate : Q) (header bad : string) (before after : list string)
    (loaded : RideVector) :
  load_ride_database extract_double indeterminate (Some (header :: before))
  = Loaded loaded ->
  length (split_fields bad EmptyString) <> 3%nat ->
  load_ride_database extract_double indeterminate
    (Some (header :: before ++ bad :: after))
  = LoadFailure.
Proof.
  cbn [load_ride_database]. intros Hload Hbad.
  change (header :: before ++ bad :: after)
    with ((header :: before) ++ bad :: after).
  rewrite load_lines_app, Hload.
  apply load_lines_wrong_field_count; [cbn [length]; lia | exact Hbad].
Qed.

Lemma load_ride_database_bad_record_witness :
  load_ride_database read_unsigned 0
    (Some ["description^cost^time"; "castle^10^25"]%string)
  = Loaded [mkRideItem "castle" 10 (inject_Z 25)] /\
  length (split_fields "wheel^7" EmptyString) <> 3%nat /\
  load_ride_database read_unsigned 0
    (Some ("description^cost^time"
           :: ["castle^10^25"] ++ "wheel^7" :: ["swing^3^4"])%string)
  = LoadFailure.
Proof.
  assert (load_ride_database read_unsigned 0
            (Some ["description^cost^time"; "castle^10^25"]%string)
          = Loaded [mkRideItem "castle" 10 (inject_Z 25)]) as Hload
    by reflexivity.
  assert (length (split_fields "wheel^7" EmptyString) <> 3%nat) as Hbad
    by (vm_compute; discriminate).
  split; [exact Hload|]. split; [exact Hbad|].
  exact (load_ride_database_bad_record read_unsigned 0
           "description^cost^time" "wheel^7" ["castle^10^25"%string]
           ["swing^3^4"%string] _ Hload Hbad).
Defined.

(** X27: the cost of a loaded ride is the [int] to which the constructor
    narrows its [size_t] parameter, while the assertion of line 44 is on the
    parameter.  A record whose cost field reads a whole number [v] with
    [2^31 <= v < 2^32] is loaded, and the ride has the negative cost
    [v - 2^32]. *)
Theorem load_ride_database_cost_narrowed
    (extract_double : string -> option Q) (indeterminate : Q)
    (header line descr cost_field time_field : string) (v : Z) (t : Q) :
  split_fields line EmptyString = [descr; cost_field; time_field] ->
  descr <> EmptyString ->
  extract_double cost_field = Some (inject_Z v) ->
  2 ^ 31 <= v < 2 ^ 32 ->
  extract_double time_field = Some t ->
  load_ride_database extract_double indeterminate (Some [header; line])
  = Loaded [mkRideItem descr (v - 2 ^ 32) t] /\
  v - 2 ^ 32 < 0.
Proof.
  intros Hsplit Hdescr Hcost Hv Htime. split; [|lia].
  unfold load_ride_database. cbn [load_lines Z.add Z.eqb Pos.add Pos.eqb Pos.succ].
  rewrite Hsplit. unfold parse_dbl. rewrite Hcost, Htime.
  cbn [andb]. unfold new_RideItem.
  apply String.eqb_neq in Hdescr. rewrite Hdescr.
  assert (double_to_size_t (inject_Z v) = v) as Hsize.
  { unfold double_to_size_t, inject_Z. cbn [Qnum Qden].
    rewrite Z.quot_1_r. apply Z.mod_small. lia. }
  unfold double_to_int. rewrite Hsize.
  assert ((0 <? v) = true) as -> by (apply Z.ltb_lt; lia).
  cbn [negb andb]. unfold int_wrap.
  change (2 ^ 32) with (2 * 2 ^ 31) in *.
  replace (v + 2 ^ 31) with (v - 2 ^ 31 + 1 * (2 * 2 ^ 31)) by lia.
  rewrite Z.mod_add by lia. rewrite Z.mod_small by lia.
  cbn [app]. do 3 f_equal. lia.
Qed.

Lemma load_ride_database_cost_narrowed_witness :
  split_fields "castle^3000000000^5" EmptyString
  = ["castle"; "3000000000"; "5"]%string /\
  "castle"%string <> EmptyString /\
  read_unsigned "3000000000" = Some (inject_Z 3000000000) /\
  (2 ^ 31 <= 3000000000 < 2 ^ 32) /\
  read_unsigned "5" = Some (inject_Z 5) /\
  load_ride_database read_unsigned 0
    (Some ["description^cost^time"; "castle^3000000000^5"]%string)
  = Loaded [mkRideItem "castle" (3000000000 - 2 ^ 32) (inject_Z 5)] /\
  3000000000 - 2 ^ 32 < 0.
Proof.
  assert (split_fields "castle^3000000000^5" EmptyString
          = ["castle"; "3000000000"; "5"]%string) as Hsplit by reflexivity.
  assert ("castle"%string <> EmptyString) as Hdescr by discriminate.
  assert (read_unsigned "3000000000" = Some (inject_Z 3000000000)) as Hcost
    by reflexivity.
  assert (2 ^ 31 <= 3000000000 < 2 ^ 32) as Hv
    by (split; vm_compute; [discriminate | reflexivity]).
  assert (read_unsigned "5" = Some (inject_Z 5)) as Htime by reflexivity.
  split; [exact Hsplit|]. split; [exact Hdescr|]. split; [exact Hcost|].
  split; [exact Hv|]. split; [exact Htime|].
  exact (load_ride_database_cost_narrowed read_unsigned 0
           "description^cost^time" "castle^3000000000^5" "castle"
           "3000000000" "5" 3000000000 (inject_Z 5)
           Hsplit Hdescr Hcost Hv Htime).
Defined.
